(** * CodePilot: the file-preview sandbox and the server supervisor

    A shallow embedding of the two source units of the repository that carry
    logic of their own:

    - [src/app/api/files/preview/route.ts], the [GET] handler of the
      file-preview route (module [Preview]);
    - the Electron main process: [loadUserShellEnv], [startServer],
      [waitForServer] and the application event handlers (module [Main]).

    JavaScript values are modelled as the code uses them: strings as [string],
    objects used as dictionaries as [gmap string string] (property names are
    ordinary keys here; the accessor [__proto__] is outside the model), arrays
    as lists, numbers that are integers as [Z] with [NaN] kept apart,
    [null]/[undefined] as [None].  Module-level [let] variables become the
    fields of one state record that every handler threads through. *)

From Stdlib Require Import ZArith String Ascii List Lia Bool.
From stdpp Require Import base option list strings gmap pretty.

Open Scope Z_scope.

(** ** JavaScript primitives used by the two units *)

Module Js.

(** [s.indexOf(c)] for a one-character needle: the position of the first
    occurrence, [-1] when there is none. *)
Fixpoint indexOf_from (c : ascii) (s : string) (i : Z) : Z :=
  match s with
  | EmptyString => -1
  | String a s' => if Ascii.eqb a c then i else indexOf_from c s' (i + 1)
  end.

Definition indexOf (c : ascii) (s : string) : Z := indexOf_from c s 0.

Fixpoint str_drop (n : nat) (s : string) : string :=
  match n, s with
  | O, _ => s
  | S _, EmptyString => EmptyString
  | S n', String _ s' => str_drop n' s'
  end.

Fixpoint str_take (n : nat) (s : string) : string :=
  match n, s with
  | O, _ => EmptyString
  | S _, EmptyString => EmptyString
  | S n', String a s' => String a (str_take n' s')
  end.

(** Relative index of [slice]: negative counts from the end, all clamped to
    [0..len]. *)
Definition clamp_index (len k : Z) : Z :=
  if k <? 0 then Z.max (len + k) 0 else Z.min k len.

(** [s.slice(from, to)]. *)
Definition slice (s : string) (from to : Z) : string :=
  let len := Z.of_nat (String.length s) in
  let a := clamp_index len from in
  let b := clamp_index len to in
  str_take (Z.to_nat (b - a)) (str_drop (Z.to_nat a) s).

(** [s.slice(from)]. *)
Definition slice_from (s : string) (from : Z) : string :=
  slice s from (Z.of_nat (String.length s)).

(** [arr.slice(from)] on an array. *)
Definition arr_slice_from {A : Type} (l : list A) (from : Z) : list A :=
  drop (Z.to_nat (clamp_index (Z.of_nat (length l)) from)) l.

(** [s.split(c)] for a one-character separator: never empty, [""] splits
    into [[""]]. *)
Fixpoint split (c : ascii) (s : string) : list string :=
  match s with
  | EmptyString => [EmptyString]
  | String a s' =>
      if Ascii.eqb a c then EmptyString :: split c s'
      else match split c s' with
           | h :: t => String a h :: t
           | [] => [String a EmptyString]
           end
  end.

(** [arr.join(sep)]. *)
Definition join (sep : string) (l : list string) : string := String.concat sep l.

(** Truthiness of a value that is a string, [null] or [undefined]. *)
Definition truthy (v : option string) : bool :=
  match v with
  | Some (String _ _) => true
  | _ => false
  end.

(** [v || d] on such a value. *)
Definition or_else (v : option string) (d : string) : string :=
  match v with
  | Some (String a s) => String a s
  | _ => d
  end.

(** Numbers: the integers, and [NaN].  The values the code computes with are
    integers; a decimal literal beyond 2^53 would be rounded by the engine,
    which no comparison with 1000 can observe. *)
Inductive number : Type :=
| NaN
| Num (z : Z).

(** [Math.min(a, b)]: [NaN] when either argument is. *)
Definition Math_min (a b : number) : number :=
  match a, b with
  | Num x, Num y => Num (Z.min x y)
  | _, _ => NaN
  end.

(** White space of [parseInt] and [trim], within ASCII: TAB, LF, VT, FF, CR
    and SPACE. *)
Definition is_space (a : ascii) : bool :=
  let n := nat_of_ascii a in
  ((9 <=? n)%nat && (n <=? 13)%nat) || (n =? 32)%nat.

Definition digit_of (a : ascii) : option Z :=
  let n := nat_of_ascii a in
  if ((48 <=? n)%nat && (n <=? 57)%nat) then Some (Z.of_nat n - 48) else None.

Fixpoint skip_spaces (s : string) : string :=
  match s with
  | String a s' => if is_space a then skip_spaces s' else s
  | EmptyString => EmptyString
  end.

(** The longest prefix of decimal digits, read left to right: [None] when
    [s] does not start with a digit. *)
Fixpoint digits_value (acc : option Z) (s : string) : option Z :=
  match s with
  | String a s' =>
      match digit_of a with
      | Some d => digits_value (Some (10 * default 0 acc + d)) s'
      | None => acc
      end
  | EmptyString => acc
  end.

(** [parseInt(s, 10)]: leading white space, an optional sign, then the
    longest run of digits; [NaN] when there is no digit. *)
Definition parseInt (s : string) : number :=
  let t := skip_spaces s in
  let '(sign, body) :=
    match t with
    | String "-" r => (-1, r)
    | String "+" r => (1, r)
    | _ => (1, t)
    end in
  match digits_value None body with
  | Some v => Num (sign * v)
  | None => NaN
  end.

Definition str_rev (s : string) : string :=
  string_of_list_ascii (rev (list_ascii_of_string s)).

(** [s.trim()]. *)
Definition trim (s : string) : string :=
  str_rev (skip_spaces (str_rev (skip_spaces s))).

(** What a [throw] carries: an [Error] with its message, or any other
    value. *)
Inductive thrown : Type :=
| ErrorObj (message : string)
| OtherValue (shown : string).

(** [err instanceof Error ? err.message : fallback]. *)
Definition message_or (e : thrown) (fallback : string) : string :=
  match e with
  | ErrorObj m => m
  | OtherValue _ => fallback
  end.

End Js.

(** ** The path guard of [@/lib/files]

    [route.ts] imports [isPathSafe], [isRootPath] and [readFilePreview] from
    [@/lib/files], which is not among the sources.  The two guards are
    modelled here from the specification (section 4.5); the route itself is
    parametric in all three (module [Preview]). *)

Module Files.

Section Platform.

(** The platform's path separator. *)
Variable sep : ascii.

(** Modelled from the spec: the segment sequence of a normalized path, the
    named components between separators ("normalized segment sequence",
    section 8 of the specification; the file [@/lib/files] that computes it is
    missing). *)
Definition segments (p : string) : list string :=
  List.filter (fun s => negb (String.eqb s EmptyString)) (Js.split sep p).

(** Segment-wise comparison: every segment of [b] is matched, in order and
    exactly, by the segment of [c] at the same position. *)
Fixpoint seg_prefix (b c : list string) : bool :=
  match b, c with
  | [], _ => true
  | _ :: _, [] => false
  | x :: b', y :: c' => String.eqb x y && seg_prefix b' c'
  end.

(** Modelled from the spec: [isPathSafe] of the missing [@/lib/files]
    ("true iff candidate is lexically equal to base or is a descendant of
    base", by "segment-boundary matching, not raw substring matching"; both
    arguments already absolute and normalized). *)
Definition isPathSafe (base candidate : string) : bool :=
  seg_prefix (segments base) (segments candidate).

(** Modelled from the spec: [isRootPath] of the missing [@/lib/files]
    ("true if the normalized path has no meaningful path segments below a
    drive/volume root"), for paths whose root is the bare separator. *)
Definition isRootPath (p : string) : bool :=
  match segments p with
  | [] => true
  | _ :: _ => false
  end.

End Platform.

(** A model of Node's [path.resolve] on POSIX for one argument: a relative
    path is taken from [cwd], [.] and empty segments are dropped, [..] pops
    a segment, and the result has no trailing separator. *)
Fixpoint resolve_segments (stack : list string) (segs : list string) : list string :=
  match segs with
  | [] => stack
  | s :: rest =>
      if String.eqb s "." then resolve_segments stack rest
      else if String.eqb s ".." then resolve_segments (removelast stack) rest
      else resolve_segments (stack ++ [s]) rest
  end.

Definition is_absolute (p : string) : bool :=
  match p with
  | String "/" _ => true
  | _ => false
  end.

Definition posix_resolve (cwd p : string) : string :=
  let full := if is_absolute p then p else cwd +:+ "/" +:+ p in
  match resolve_segments [] (segments "/" full) with
  | [] => "/"
  | segs => String.concat "" (map (fun s => "/" +:+ s) segs)
  end.

End Files.

(** ** [src/app/api/files/preview/route.ts] *)

Module Preview.

(** The query parameters of a request, as [searchParams.get] returns them:
    [None] for a parameter that is absent. *)
Record request : Type := {
  q_path : option string;
  q_maxLines : option string;
  q_baseDir : option string
}.

(** Calls into [@/lib/files], in the order the handler makes them.  The two
    guards are pure; [ReadFilePreview] is the only file I/O of the route. *)
Inductive call : Type :=
| IsRootPath (base : string)
| IsPathSafe (base candidate : string)
| ReadFilePreview (path : string) (maxLines : Js.number).

Inductive body (P : Type) : Type :=
| ErrorResponse (error : string)
| FilePreviewResponse (preview : P).

Arguments ErrorResponse {P} error.
Arguments FilePreviewResponse {P} preview.

(** [NextResponse.json(body, { status })]. *)
Record response (P : Type) : Type := {
  status : Z;
  json : body P
}.

Arguments status {P} r.
Arguments json {P} r.


Section Route.

(** The preview value that [readFilePreview] produces. *)
Context {FilePreview : Type}.

(** [path.resolve] (for the working directory of the server) and
    [os.homedir()]. *)
Variable resolve : string -> string.
Variable homedir : string.

(** The imports from [@/lib/files]; [readFilePreview] either throws or
    returns a preview. *)
Variable isRootPath : string -> bool.
Variable isPathSafe : string -> string -> bool.
Variable readFilePreview : string -> Js.number -> Js.thrown + FilePreview.

Definition reject (code : Z) (msg : string) : response FilePreview :=
  {| status := code; json := ErrorResponse msg |}.

(** The sandbox decision of lines 25-49: the guard calls made, and the 403
    response when the request is refused. *)
Definition sandbox (baseDir : option string) (resolvedPath : string)
  : list call * option (response FilePreview) :=
  if Js.truthy baseDir then
    let resolvedBase := resolve (default EmptyString baseDir) in
    if isRootPath resolvedBase then
      ([IsRootPath resolvedBase],
       Some (reject 403 "Cannot use filesystem root as base directory"))
    else if negb (isPathSafe resolvedBase resolvedPath) then
      ([IsRootPath resolvedBase; IsPathSafe resolvedBase resolvedPath],
       Some (reject 403 "File is outside the project scope"))
    else
      ([IsRootPath resolvedBase; IsPathSafe resolvedBase resolvedPath], None)
  else
    if negb (isPathSafe homedir resolvedPath) then
      ([IsPathSafe homedir resolvedPath],
       Some (reject 403 "File is outside the allowed scope"))
    else
      ([IsPathSafe homedir resolvedPath], None).

(** [export async function GET(request)]: the calls it makes, in order, and
    its response. *)
Definition GET (request : request) : list call * response FilePreview :=
  let filePath := q_path request in
  let maxLines := Js.parseInt (Js.or_else (q_maxLines request) "200") in
  if negb (Js.truthy filePath) then
    ([], reject 400 "Missing path parameter")
  else
    let resolvedPath := resolve (default EmptyString filePath) in
    let baseDir := q_baseDir request in
    match sandbox baseDir resolvedPath with
    | (guards, Some refusal) => (guards, refusal)
    | (guards, None) =>
        let limit := Js.Math_min maxLines (Js.Num 1000) in
        (guards ++ [ReadFilePreview resolvedPath limit],
         match readFilePreview resolvedPath limit with
         | inr preview => {| status := 200; json := FilePreviewResponse preview |}
         | inl error => reject 500 (Js.message_or error "Failed to read file")
         end)
    end.

End Route.

End Preview.

(** ** The Electron main process *)

Module Main.

Local Abbreviation env := (gmap string string).

(** What the process reads from Electron and Node and never writes. *)
Record host : Type := {
  isDev : bool;            (* [!app.isPackaged] *)
  platform : string;       (* [process.platform] *)
  process_env : env;       (* [process.env] *)
  homedir : string;        (* [os.homedir()] *)
  resourcesPath : string;  (* [process.resourcesPath] *)
  execPath : string;       (* [process.execPath] *)
  userData : string        (* [app.getPath('userData')] *)
}.

Inductive log_entry : Type :=
| Log (msg : string)
| Warn (msg : string) (err : Js.thrown)
| Err (msg : string).

(** *** Synchronous code that logs and may throw *)

Inductive completion (A : Type) : Type :=
| Normal (a : A)
| Throw (e : Js.thrown).

Arguments Normal {A} a.
Arguments Throw {A} e.

(** The console lines written, then how the code completed. *)
Definition eff (A : Type) : Type := (list log_entry * completion A)%type.

Definition ret {A : Type} (a : A) : eff A := ([], Normal a).

Definition bind {A B : Type} (m : eff A) (k : A -> eff B) : eff B :=
  match m with
  | (out, Normal a) => let '(out', r) := k a in (out ++ out', r)
  | (out, Throw e) => (out, Throw e)
  end.

Definition console (l : log_entry) : eff unit := ([l], Normal tt).

(** [try { body } catch (err) { handler }]. *)
Definition try_catch {A : Type} (body : eff A) (handler : Js.thrown -> eff A) : eff A :=
  match body with
  | (out, Normal a) => (out, Normal a)
  | (out, Throw e) => let '(out', r) := handler e in (out ++ out', r)
  end.

#[local] Instance eff_ret : MRet eff := @ret.
#[local] Instance eff_bind : MBind eff := fun A B k m => bind m k.

(** *** [loadUserShellEnv] *)

(** The body of the [for] loop (lines 89-96): one line of the output of
    [env], added to the object built so far. *)
Definition parse_env_line (acc : env) (line : string) : env :=
  let idx := Js.indexOf "=" line in
  if 0 <? idx then
    let key := Js.slice line 0 idx in
    let value := Js.slice_from line (idx + 1) in
    <[key := value]> acc
  else acc.

Definition parse_env (result : string) : env :=
  fold_left parse_env_line (Js.split "010" result) ∅.

Section Capture.

Variable h : host.

(** [execFileSync(shell, args, { timeout: 5000, ... })]: the captured
    standard output, or a throw (the shell could not be spawned, it ran
    past the timeout, or it exited with a failure status). *)
Variable execFileSync : string -> list string -> completion string.

(** The [try] block of [loadUserShellEnv]. *)
Definition loadUserShellEnv_try : eff env :=
  let shell := Js.or_else (process_env h !! "SHELL") "/bin/zsh" in
  result ← ([], execFileSync shell ["-ilc"; "env"]);
  let env0 := parse_env result in
  _ ← console (Log ("Loaded " +:+ pretty (size env0) +:+ " env vars from user shell"));
  ret env0.

Definition loadUserShellEnv : eff env :=
  try_catch loadUserShellEnv_try
    (fun err => _ ← console (Warn "Failed to load user shell env:" err); ret ∅).

End Capture.

(** *** Child processes and the module-level state *)

(** A [ChildProcess] object, with the options it was spawned with. *)
Record ChildProcess : Type := {
  spawnfile : string;
  spawnargs : list string;
  spawn_env : env;
  spawn_cwd : string;
  exitCode : option Z;          (* [child.exitCode], [null] until it exits with a code *)
  signalCode : option string;   (* [child.signalCode] *)
  killed : bool                 (* [child.kill()] has sent its signal *)
}.

(** The operating-system process behind the object is still there. *)
Definition running (c : ChildProcess) : bool :=
  match exitCode c, signalCode c with
  | None, None => true
  | _, _ => false
  end.

Record BrowserWindow : Type := {
  window_id : nat;
  loadedURL : string
}.

(** The five module-level variables of the main process, and the objects of
    Electron and Node they refer to.  A child-process handle is the index of
    the child in [children], which only ever grows, so that two variables
    holding the same handle alias one object. *)
Record state : Type := {
  mainWindow : option nat;
  serverProcess : option nat;
  serverPort : option Z;
  serverErrors : list string;
  userShellEnv : env;
  children : list ChildProcess;
  windows : list BrowserWindow;     (* [BrowserWindow.getAllWindows()] *)
  windows_created : nat;
  output : list log_entry;          (* the console *)
  errorBoxes : list (string * string);   (* [dialog.showErrorBox] *)
  quitting : bool                   (* [app.quit()] was called *)
}.

Definition initial : state := {|
  mainWindow := None;
  serverProcess := None;
  serverPort := None;
  serverErrors := [];
  userShellEnv := ∅;
  children := [];
  windows := [];
  windows_created := 0;
  output := [];
  errorBoxes := [];
  quitting := false
|}.

Definition set_serverProcess (v : option nat) (st : state) : state :=
  {| mainWindow := mainWindow st; serverProcess := v; serverPort := serverPort st;
     serverErrors := serverErrors st; userShellEnv := userShellEnv st;
     children := children st; windows := windows st;
     windows_created := windows_created st; output := output st;
     errorBoxes := errorBoxes st; quitting := quitting st |}.

Definition set_serverPort (v : option Z) (st : state) : state :=
  {| mainWindow := mainWindow st; serverProcess := serverProcess st; serverPort := v;
     serverErrors := serverErrors st; userShellEnv := userShellEnv st;
     children := children st; windows := windows st;
     windows_created := windows_created st; output := output st;
     errorBoxes := errorBoxes st; quitting := quitting st |}.

Definition set_serverErrors (v : list string) (st : state) : state :=
  {| mainWindow := mainWindow st; serverProcess := serverProcess st;
     serverPort := serverPort st; serverErrors := v; userShellEnv := userShellEnv st;
     children := children st; windows := windows st;
     windows_created := windows_created st; output := output st;
     errorBoxes := errorBoxes st; quitting := quitting st |}.

Definition set_userShellEnv (v : env) (st : state) : state :=
  {| mainWindow := mainWindow st; serverProcess := serverProcess st;
     serverPort := serverPort st; serverErrors := serverErrors st; userShellEnv := v;
     children := children st; windows := windows st;
     windows_created := windows_created st; output := output st;
     errorBoxes := errorBoxes st; quitting := quitting st |}.

Definition set_children (v : list ChildProcess) (st : state) : state :=
  {| mainWindow := mainWindow st; serverProcess := serverProcess st;
     serverPort := serverPort st; serverErrors := serverErrors st;
     userShellEnv := userShellEnv st; children := v; windows := windows st;
     windows_created := windows_created st; output := output st;
     errorBoxes := errorBoxes st; quitting := quitting st |}.

Definition set_windows (main : option nat) (v : list BrowserWindow) (created : nat)
  (st : state) : state :=
  {| mainWindow := main; serverProcess := serverProcess st;
     serverPort := serverPort st; serverErrors := serverErrors st;
     userShellEnv := userShellEnv st; children := children st; windows := v;
     windows_created := created; output := output st;
     errorBoxes := errorBoxes st; quitting := quitting st |}.

Definition write (l : log_entry) (st : state) : state :=
  {| mainWindow := mainWindow st; serverProcess := serverProcess st;
     serverPort := serverPort st; serverErrors := serverErrors st;
     userShellEnv := userShellEnv st; children := children st; windows := windows st;
     windows_created := windows_created st; output := output st ++ [l];
     errorBoxes := errorBoxes st; quitting := quitting st |}.

Definition showErrorBox (title content : string) (st : state) : state :=
  {| mainWindow := mainWindow st; serverProcess := serverProcess st;
     serverPort := serverPort st; serverErrors := serverErrors st;
     userShellEnv := userShellEnv st; children := children st; windows := windows st;
     windows_created := windows_created st; output := output st;
     errorBoxes := errorBoxes st ++ [(title, content)]; quitting := quitting st |}.

Definition set_quitting (st : state) : state :=
  {| mainWindow := mainWindow st; serverProcess := serverProcess st;
     serverPort := serverPort st; serverErrors := serverErrors st;
     userShellEnv := userShellEnv st; children := children st; windows := windows st;
     windows_created := windows_created st; output := output st;
     errorBoxes := errorBoxes st; quitting := true |}.

(** [child.kill()]: the signal is sent; the process exits later, on its own
    [exit] event. *)
Definition kill (pid : nat) (st : state) : state :=
  set_children
    (alter (fun c =>
       {| spawnfile := spawnfile c; spawnargs := spawnargs c; spawn_env := spawn_env c;
          spawn_cwd := spawn_cwd c; exitCode := exitCode c;
          signalCode := signalCode c; killed := true |}) pid (children st))
    st.

(** Node records how a child ended ([exitCode] or [signalCode]) in the turn
    in which it emits [exit]. *)
Definition record_exit (pid : nat) (code : option Z) (signal : option string)
  (st : state) : state :=
  set_children
    (alter (fun c =>
       {| spawnfile := spawnfile c; spawnargs := spawnargs c; spawn_env := spawn_env c;
          spawn_cwd := spawn_cwd c; exitCode := code;
          signalCode := signal; killed := killed c |}) pid (children st))
    st.

Definition is_live (st : state) (pid : nat) : bool :=
  match children st !! pid with
  | Some c => running c
  | None => false
  end.

(** The child processes that have been spawned and have not exited. *)
Definition live_children (st : state) : list nat :=
  List.filter (is_live st) (seq 0 (length (children st))).

(** *** [startServer] *)

(** One entry of an object literal: a spread [...e] or a property [k: v].
    Entries are evaluated in order and a later one overwrites an earlier
    one with the same key. *)
Inductive entry : Type :=
| Spread (e : env)
| Property (k v : string).

Definition apply_entry (acc : env) (x : entry) : env :=
  match x with
  | Spread e => e ∪ acc
  | Property k v => <[k := v]> acc
  end.

Definition object_literal (entries : list entry) : env :=
  fold_left apply_entry entries ∅.

(** [path.join(a, b)] for two segments that are already normal. *)
Definition path_join (a b : string) : string := a +:+ "/" +:+ b.

Definition dquote : string := String "034" EmptyString.

Section Server.

Variable h : host.

Definition basePath : string := "/usr/local/bin:/opt/homebrew/bin:/usr/bin:/bin".

(** [userShellEnv.PATH || process.env.PATH || ''] (line 170). *)
Definition shellPath (shellEnv : env) : string :=
  Js.or_else (shellEnv !! "PATH") (Js.or_else (process_env h !! "PATH") EmptyString).

(** The [env] object of lines 172-183. *)
Definition server_env (shellEnv : env) (port : Z) : env :=
  let home := homedir h in
  object_literal [
    Spread shellEnv;
    Spread (process_env h);
    Spread shellEnv;
    Property "PORT" (pretty port);
    Property "HOSTNAME" "127.0.0.1";
    Property "CLAUDE_GUI_DATA_DIR" (userData h);
    Property "ELECTRON_RUN_AS_NODE" "1";
    Property "HOME" home;
    Property "PATH" (basePath +:+ ":" +:+ home +:+ "/.npm-global/bin:" +:+ home
                 +:+ "/.local/bin:" +:+ home +:+ "/.claude/bin:" +:+ shellPath shellEnv)
  ].

(** [startServer(port)]: the state after the call and the handle of the
    child it spawned.  The three listeners it registers on the child are
    [on_stdout_data], [on_stderr_data] and [on_exit] below; they close over
    the module-level variables only, never over the child. *)
Definition startServer (port : Z) (st : state) : state * nat :=
  let standaloneDir := path_join (resourcesPath h) "standalone" in
  let serverPath := path_join standaloneDir "server.js" in
  let nodePath := execPath h in
  let st := write (Log ("Using Node.js: " +:+ nodePath)) st in
  let st := write (Log ("Server path: " +:+ serverPath)) st in
  let st := write (Log ("Standalone dir: " +:+ standaloneDir)) st in
  let st := set_serverErrors [] st in
  let child := {|
    spawnfile := "/bin/sh";
    spawnargs := ["-c"; "exec " +:+ dquote +:+ nodePath +:+ dquote +:+ " "
                        +:+ dquote +:+ serverPath +:+ dquote];
    spawn_env := server_env (userShellEnv st) port;
    spawn_cwd := standaloneDir;
    exitCode := None;
    signalCode := None;
    killed := false
  |} in
  (set_children (children st ++ [child]) st, length (children st)).

(** *** The listeners on a child *)

(** [child.stdout.on('data', ...)] (lines 194-198). *)
Definition on_stdout_data (data : string) (st : state) : state :=
  let msg := Js.trim data in
  let st := write (Log ("[server] " +:+ msg)) st in
  set_serverErrors (serverErrors st ++ [msg]) st.

(** [child.stderr.on('data', ...)] (lines 200-204). *)
Definition on_stderr_data (data : string) (st : state) : state :=
  let msg := Js.trim data in
  let st := write (Err ("[server:err] " +:+ msg)) st in
  set_serverErrors (serverErrors st ++ [msg]) st.

Definition show_code (code : option Z) : string :=
  match code with
  | Some c => pretty c
  | None => "null"
  end.

(** [child.on('exit', ...)] (lines 206-209). *)
Definition on_exit (code : option Z) (st : state) : state :=
  let st := write (Log ("Server process exited with code " +:+ show_code code)) st in
  set_serverProcess None st.

(** What a child process does, as the event loop reports it.  An exit
    carries a code, or a signal name when a signal ended the process. *)
Inductive child_event : Type :=
| StdoutData (pid : nat) (data : string)
| StderrData (pid : nat) (data : string)
| Exit (pid : nat) (code : option Z) (signal : option string).

Definition spawned (st : state) (pid : nat) : bool :=
  match children st !! pid with
  | Some _ => true
  | None => false
  end.

(** One child event, delivered to the listeners of [startServer].  A
    process exits once; nothing comes from a process never spawned. *)
Definition deliver (st : state) (ev : child_event) : state :=
  match ev with
  | StdoutData pid data => if spawned st pid then on_stdout_data data st else st
  | StderrData pid data => if spawned st pid then on_stderr_data data st else st
  | Exit pid code signal =>
      if is_live st pid then on_exit code (record_exit pid code signal st) else st
  end.

Definition deliver_all (st : state) (evs : list child_event) : state :=
  fold_left deliver evs st.

(** *** [waitForServer] *)

(** What the network does with one [GET /api/health]: an HTTP response or a
    connection error after [latency] milliseconds, or nothing at all. *)
Inductive net_reply : Type :=
| Reply (statusCode : Z) (latency : nat)
| NetError (latency : nat)
| Silence.

Inductive settled : Type :=
| Resolved
| Rejected (e : Js.thrown).

(** The promise of lines 132-142 and the milliseconds it takes to settle:
    [req.setTimeout(1000, ...)] rejects it when the socket has been idle for
    a second. *)
Definition probe (r : net_reply) : settled * Z :=
  match r with
  | Reply statusCode latency =>
      if Z.of_nat latency <? 1000 then
        (if statusCode =? 200 then Resolved
         else Rejected (Js.ErrorObj ("Status " +:+ pretty statusCode)),
         Z.of_nat latency)
      else (Rejected (Js.ErrorObj "timeout"), 1000)
  | NetError latency =>
      if Z.of_nat latency <? 1000 then
        (Rejected (Js.ErrorObj "connect error"), Z.of_nat latency)
      else (Rejected (Js.ErrorObj "timeout"), 1000)
  | Silence => (Rejected (Js.ErrorObj "timeout"), 1000)
  end.

(** One iteration of the loop, as the outside world shapes it: the reply to
    the probe, the child events delivered while the probe is awaited, those
    delivered during the 200 ms sleep, and how late the sleep timer fires. *)
Record turn : Type := {
  reply : net_reply;
  during_probe : list child_event;
  during_sleep : list child_event;
  timer_lag : nat
}.

(** [timeout / 1000] as JavaScript prints it. *)
Definition show_seconds (ms : Z) : string :=
  let q := Z.quot ms 1000 in
  let r := Z.abs (Z.rem ms 1000) in
  let sign := if (ms <? 0) && (q =? 0) && negb (r =? 0) then "-" else EmptyString in
  let frac :=
    if r =? 0 then EmptyString
    else if r mod 100 =? 0 then "." +:+ pretty (r / 100)
    else if r mod 10 =? 0 then
      "." +:+ (if r <? 100 then "0" else EmptyString) +:+ pretty (r / 10)
    else "." +:+ (if r <? 10 then "00" else if r <? 100 then "0" else EmptyString)
         +:+ pretty r in
  sign +:+ pretty q +:+ frac.

Definition newline : string := String "010" EmptyString.

(** The error of lines 127-129. *)
Definition exited_error (code : Z) (st : state) : Js.thrown :=
  Js.ErrorObj ("Server process exited with code " +:+ pretty code +:+ "."
               +:+ newline +:+ newline +:+ Js.join newline (serverErrors st)).

(** The error of lines 148-150. *)
Definition timeout_error (timeout : Z) (st : state) : Js.thrown :=
  Js.ErrorObj ("Server startup timeout after " +:+ show_seconds timeout +:+ "s."
               +:+ newline +:+ newline
               +:+ (if 0 <? Z.of_nat (length (serverErrors st)) then
                      "Server output:" +:+ newline
                      +:+ Js.join newline (Js.arr_slice_from (serverErrors st) (-10))
                    else "No server output captured.")).

(** [serverProcess && serverProcess.exitCode !== null] (line 126), with the
    exit code it found. *)
Definition observed_exit (st : state) : option Z :=
  match serverProcess st with
  | Some pid =>
      match children st !! pid with
      | Some c => exitCode c
      | None => None
      end
  | None => None
  end.

(** How a call of [waitForServer] ended. *)
Record run : Type := {
  result : settled;
  ended_at : Z;        (* [Date.now()] when the promise settled *)
  final : state;
  probes : nat         (* the probes it had sent *)
}.

(** The [while] loop of [waitForServer], from the loop test on, at time
    [now] with [sent] probes behind it.  The run is [None] when the script
    ends before the loop does. *)
Fixpoint waitForServer_loop (port timeout start : Z) (script : list turn)
  (now : Z) (sent : nat) (st : state) : option run :=
  if now - start <? timeout then
    match observed_exit st with
    | Some code =>
        Some {| result := Rejected (exited_error code st); ended_at := now;
                final := st; probes := sent |}
    | None =>
        match script with
        | [] => None
        | t :: script' =>
            let '(answer, elapsed) := probe (reply t) in
            let st1 := deliver_all st (during_probe t) in
            let now1 := now + elapsed in
            match answer with
            | Resolved =>
                Some {| result := Resolved; ended_at := now1; final := st1;
                        probes := S sent |}
            | Rejected _ =>
                let st2 := deliver_all st1 (during_sleep t) in
                let now2 := now1 + 200 + Z.of_nat (timer_lag t) in
                waitForServer_loop port timeout start script' now2 (S sent) st2
            end
        end
    end
  else
    Some {| result := Rejected (timeout_error timeout st); ended_at := now;
            final := st; probes := sent |}.

(** [waitForServer(port, timeout = 30000)], called at time [now]. *)
Definition waitForServer (port : Z) (timeout : option Z) (script : list turn)
  (now : Z) (st : state) : option run :=
  waitForServer_loop port (default 30000 timeout) now script now 0 st.

(** *** Windows and the application's event handlers *)

(** [createWindow(port)]. *)
Definition createWindow (port : Z) (st : state) : state :=
  let id := windows_created st in
  set_windows (Some id)
    (windows st ++ [{| window_id := id; loadedURL := "http://127.0.0.1:" +:+ pretty port |}])
    (S id) st.

(** [!v] for a value that is an object or [null]. *)
Definition is_null {A : Type} (v : option A) : bool :=
  match v with
  | None => true
  | Some _ => false
  end.

(** [serverPort || 3000]. *)
Definition serverPort_or_3000 (st : state) : Z :=
  match serverPort st with
  | Some p => if p =? 0 then 3000 else p
  | None => 3000
  end.

(** The body shared by [window-all-closed] and [before-quit]:
    [if (serverProcess) { serverProcess.kill(); serverProcess = null; }]. *)
Definition kill_server (st : state) : state :=
  match serverProcess st with
  | Some pid => set_serverProcess None (kill pid st)
  | None => st
  end.

(** [app.on('before-quit', ...)]. *)
Definition on_before_quit (st : state) : state := kill_server st.

(** [app.quit()]: Electron emits [before-quit], then shuts down. *)
Definition app_quit (st : state) : state := set_quitting (on_before_quit st).

(** [app.on('window-all-closed', ...)]. *)
Definition on_window_all_closed (st : state) : state :=
  let st := kill_server st in
  if negb (String.eqb (platform h) "darwin") then app_quit st else st.

(** An asynchronous handler suspended at an [await]. *)
Inductive task : Type :=
| ReadyAwaitPort                  (* the startup handler, at [await getPort()] *)
| ReadyAwaitServer (port : Z)     (* ... at [await waitForServer(port)] *)
| ActivateAwaitPort               (* the [activate] handler, at [await getPort()] *)
| ActivateAwaitServer (port : Z). (* ... at [await waitForServer(port)] *)

(** [execFileSync], for [loadUserShellEnv]. *)
Variable execFileSync : string -> list string -> completion string.

(** The [catch] of the startup handler (lines 273-280). *)
Definition ready_catch (err : Js.thrown) (st : state) : state :=
  let st := write (Err "Failed to start:") st in
  let st := showErrorBox "CodePilot - Failed to Start"
    ("The internal server could not start." +:+ newline +:+ newline
     +:+ match err with Js.ErrorObj m => m | Js.OtherValue s => s end
     +:+ newline +:+ newline +:+ "Please try restarting the application.") st in
  app_quit st.

(** [app.whenReady().then(async () => ...)], up to its first [await]. *)
Definition on_ready (st : state) : state * option task :=
  match loadUserShellEnv h execFileSync with
  | (out, Normal shellEnv) =>
      let st := fold_left (fun s l => write l s) out st in
      let st := set_userShellEnv shellEnv st in
      if isDev h then
        let port := 3000 in
        let st := write (Log ("Dev mode: connecting to http://127.0.0.1:" +:+ pretty port)) st in
        let st := set_serverPort (Some port) st in
        (createWindow port st, None)
      else (st, Some ReadyAwaitPort)
  | (out, Throw _) => (fold_left (fun s l => write l s) out st, None)
  end.

(** The startup handler resumed with the port of [getPort()], or with its
    rejection. *)
Definition on_ready_port (r : completion Z) (st : state) : state * option task :=
  match r with
  | Normal port =>
      let st := write (Log ("Starting server on port " +:+ pretty port +:+ "...")) st in
      let '(st, child) := startServer port st in
      (set_serverProcess (Some child) st, Some (ReadyAwaitServer port))
  | Throw err => (ready_catch err st, None)
  end.

(** The startup handler resumed when [waitForServer(port)] has settled. *)
Definition on_ready_server (port : Z) (r : settled) (st : state) : state :=
  match r with
  | Resolved =>
      let st := write (Log "Server is ready") st in
      let st := set_serverPort (Some port) st in
      createWindow port st
  | Rejected err => ready_catch err st
  end.

(** [app.on('activate', async () => ...)], up to its first [await]. *)
Definition on_activate (st : state) : state * option task :=
  if (length (windows st) =? 0)%nat then
    if negb (isDev h) && is_null (serverProcess st) then
      (st, Some ActivateAwaitPort)
    else (createWindow (serverPort_or_3000 st) st, None)
  else (st, None).

Definition on_activate_port (r : completion Z) (st : state) : state * option task :=
  match r with
  | Normal port =>
      let '(st, child) := startServer port st in
      (set_serverProcess (Some child) st, Some (ActivateAwaitServer port))
  | Throw err => (write (Err "Failed to restart server:") st, None)
  end.

Definition on_activate_server (port : Z) (r : settled) (st : state) : state :=
  match r with
  | Resolved =>
      let st := set_serverPort (Some port) st in
      createWindow (serverPort_or_3000 st) st
  | Rejected err => write (Err "Failed to restart server:") st
  end.

(** A window is closed: its [closed] listener clears [mainWindow], and
    Electron emits [window-all-closed] when it was the last one. *)
Definition on_window_closed (id : nat) (st : state) : state :=
  if existsb (fun w => (window_id w =? id)%nat) (windows st) then
    let rest := List.filter (fun w => negb (window_id w =? id)%nat) (windows st) in
    let st := set_windows None rest (windows_created st) st in
    match rest with
    | [] => on_window_all_closed st
    | _ :: _ => st
    end
  else st.

(** *** The event loop *)

(** The main process between two turns of the event loop: the state, the
    handlers suspended at an [await], and whether [whenReady] has fired. *)
Record app : Type := {
  st : state;
  pending : list task;
  started : bool
}.

Definition boot : app := {| st := initial; pending := []; started := false |}.

(** One turn of the event loop.  [PortSettled i r] and [ServerSettled i r]
    settle the promise that the [i]-th suspended handler awaits. *)
Inductive event : Type :=
| Ready
| Activate
| WindowClosed (id : nat)
| BeforeQuit
| Child (ev : child_event)
| PortSettled (i : nat) (r : completion Z)
| ServerSettled (i : nat) (r : settled).

Definition suspend (a : app) (r : state * option task) : app :=
  {| st := fst r;
     pending := pending a ++ match snd r with Some t => [t] | None => [] end;
     started := started a |}.

Definition resume (a : app) (i : nat) (r : state * option task) : app :=
  {| st := fst r;
     pending := delete i (pending a) ++ match snd r with Some t => [t] | None => [] end;
     started := started a |}.

Definition step (a : app) (e : event) : app :=
  if quitting (st a) then a else
  match e with
  | Ready =>
      if started a then a
      else suspend {| st := st a; pending := pending a; started := true |} (on_ready (st a))
  | Activate => suspend a (on_activate (st a))
  | WindowClosed id => suspend a (on_window_closed id (st a), None)
  | BeforeQuit => suspend a (app_quit (st a), None)
  | Child ev => suspend a (deliver (st a) ev, None)
  | PortSettled i r =>
      match pending a !! i with
      | Some ReadyAwaitPort => resume a i (on_ready_port r (st a))
      | Some ActivateAwaitPort => resume a i (on_activate_port r (st a))
      | _ => a
      end
  | ServerSettled i r =>
      match pending a !! i with
      | Some (ReadyAwaitServer port) => resume a i (on_ready_server port r (st a), None)
      | Some (ActivateAwaitServer port) => resume a i (on_activate_server port r (st a), None)
      | _ => a
      end
  end.

Definition run_events (a : app) (es : list event) : app := fold_left step es a.

End Server.

End Main.

(** ** [src/app/api/chat/sessions/route.ts] *)

Module Sessions.

(** What a [catch] receives: an [Error] with its [stack] and [message], or
    any other value, as [String(error)] shows it. *)
Inductive raised : Type :=
| RaisedError (stack : option string) (message : string)
| RaisedOther (shown : string).

(** [error instanceof Error ? error.stack || error.message : String(error)]
    (lines 12 and 50). *)
Definition describe (error : raised) : string :=
  match error with
  | RaisedError stack message => Js.or_else stack message
  | RaisedOther shown => shown
  end.

(** A JSON value, as far as the handler looks at it: arrays and objects that
    are not the body itself are all [Object]. *)
Inductive value : Type :=
| Undefined
| Null
| Boolean (b : bool)
| Number (n : Js.number)
| Str (s : string)
| Object.

(** Truthiness: [!v] is its negation. *)
Definition truthy (v : value) : bool :=
  match v with
  | Undefined | Null => false
  | Boolean b => b
  | Number Js.NaN => false
  | Number (Js.Num z) => negb (z =? 0)
  | Str EmptyString => false
  | Str (String _ _) => true
  | Object => true
  end.

(** The properties of the body that the handler reads; a property that is
    absent is [Undefined]. *)
Record CreateSessionRequest : Type := {
  title : value;
  model : value;
  system_prompt : value;
  working_directory : value;
  mode : value
}.

(** What [await request.json()] gives: [null], or a value whose properties
    can be read (a number, a string, a boolean or an array has none of the
    five). *)
Inductive parsed : Type :=
| BodyNull
| Body (body : CreateSessionRequest).

(** The calls the handlers make, in order. *)
Inductive call : Type :=
| GetAllSessions
| Access (path : value)
| CreateSession (title model system_prompt working_directory mode : value)
| ConsoleError (label message : string).

Inductive payload (S : Type) : Type :=
| SessionsResponse (sessions : list S)
| SessionResponse (session : S)
| ErrorPayload (error : string) (code : option string).

Arguments SessionsResponse {S} sessions.
Arguments SessionResponse {S} session.
Arguments ErrorPayload {S} error code.

(** [Response.json(payload, { status })]. *)
Record response (S : Type) : Type := {
  status : Z;
  json : payload S
}.

Arguments status {S} r.
Arguments json {S} r.

Section Route.

(** A session of [@/lib/db]. *)
Context {Session : Type}.

(** [getAllSessions()] and [createSession(...)] of [@/lib/db], which return
    or throw, and [fs.access(path)], which is fulfilled for a path that
    exists. *)
Variable getAllSessions : raised + list Session.
Variable createSession : value -> value -> value -> value -> value -> raised + Session.
Variable exists_on_disk : string -> bool.

(** The [TypeError] that reading a property of [null] throws. *)
Variable null_property_error : raised.

(** [await fs.access(path)] is fulfilled: the path is a string that names
    something on disk.  Any other value makes [fs.access] reject. *)
Definition accessible (path : value) : bool :=
  match path with
  | Str s => exists_on_disk s
  | _ => false
  end.

(** [export async function GET()]. *)
Definition GET : list call * response Session :=
  match getAllSessions with
  | inr sessions =>
      ([GetAllSessions], {| status := 200; json := SessionsResponse sessions |})
  | inl error =>
      let message := describe error in
      ([GetAllSessions; ConsoleError "[GET /api/chat/sessions] Error:" message],
       {| status := 500; json := ErrorPayload message None |})
  end.

(** The [catch] of [POST] (lines 49-53), after the calls made so far. *)
Definition POST_catch (made : list call) (error : raised) : list call * response Session :=
  let message := describe error in
  (made ++ [ConsoleError "[POST /api/chat/sessions] Error:" message],
   {| status := 500; json := ErrorPayload message None |}).

(** [export async function POST(request)], for what [request.json()] does:
    it rejects (the body is not JSON) or is fulfilled with the parsed body. *)
Definition POST (request_json : raised + parsed) : list call * response Session :=
  match request_json with
  | inl error => POST_catch [] error
  | inr BodyNull => POST_catch [] null_property_error
  | inr (Body body) =>
      if negb (truthy (working_directory body)) then
        ([], {| status := 400;
                json := ErrorPayload "Working directory is required" (Some "MISSING_DIRECTORY") |})
      else if negb (accessible (working_directory body)) then
        ([Access (working_directory body)],
         {| status := 400;
            json := ErrorPayload "Directory does not exist" (Some "INVALID_DIRECTORY") |})
      else
        let create := CreateSession (title body) (model body) (system_prompt body)
                        (working_directory body) (mode body) in
        match createSession (title body) (model body) (system_prompt body)
                (working_directory body) (mode body) with
        | inr session =>
            ([Access (working_directory body); create],
             {| status := 201; json := SessionResponse session |})
        | inl error => POST_catch [Access (working_directory body); create] error
        end
  end.

End Route.

End Sessions.

(** * Properties *)

(** ** String primitives *)

Section StringFacts.

Lemma append_nil_l (s : string) : EmptyString +:+ s = s.
Proof. reflexivity. Qed.

Lemma append_cons (a : ascii) (s t : string) : String a s +:+ t = String a (s +:+ t).
Proof. reflexivity. Qed.

Lemma length_append (s t : string) :
  String.length (s +:+ t) = (String.length s + String.length t)%nat.
Proof.
  induction s as [|a s IH]; [reflexivity|].
  rewrite append_cons. simpl. now rewrite IH.
Qed.

Lemma str_take_append (s t : string) : Js.str_take (String.length s) (s +:+ t) = s.
Proof.
  induction s as [|a s IH]; [reflexivity|].
  rewrite append_cons. simpl. now rewrite IH.
Qed.

Lemma str_drop_append (s t : string) : Js.str_drop (String.length s) (s +:+ t) = t.
Proof.
  induction s as [|a s IH]; [reflexivity|].
  rewrite append_cons. simpl. exact IH.
Qed.

Lemma str_take_all (s : string) : Js.str_take (String.length s) s = s.
Proof. induction s as [|a s IH]; simpl; [reflexivity|now rewrite IH]. Qed.

(** A string that does not hold [c]. *)
Definition lacks (c : ascii) (s : string) : Prop := ~ In c (list_ascii_of_string s).

Lemma lacks_cons (c a : ascii) (s : string) :
  lacks c (String a s) -> a <> c /\ lacks c s.
Proof.
  unfold lacks. simpl. intros H. split.
  - intros ->. apply H. now left.
  - intros Hin. apply H. now right.
Qed.

Lemma indexOf_from_lacks (c : ascii) (s : string) (i : Z) :
  lacks c s -> Js.indexOf_from c s i = -1.
Proof.
  revert i. induction s as [|a s IH]; intros i Hl; [reflexivity|].
  apply lacks_cons in Hl as [Hne Hl]. simpl.
  destruct (Ascii.eqb_spec a c) as [->|_]; [contradiction|]. now apply IH.
Qed.

Lemma indexOf_from_first (c : ascii) (k v : string) (i : Z) :
  lacks c k ->
  Js.indexOf_from c (k +:+ String c v) i = i + Z.of_nat (String.length k).
Proof.
  revert i. induction k as [|a k IH]; intros i Hl.
  - rewrite append_nil_l. simpl. rewrite Ascii.eqb_refl. lia.
  - apply lacks_cons in Hl as [Hne Hl]. rewrite append_cons. simpl.
    destruct (Ascii.eqb_spec a c) as [->|_]; [contradiction|].
    rewrite IH by assumption. lia.
Qed.

(** Every string either lacks [c] or splits at its first [c]. *)
Lemma first_occurrence (c : ascii) (s : string) :
  lacks c s \/ exists k v, lacks c k /\ s = k +:+ String c v.
Proof.
  induction s as [|a s IH].
  - left. intros [].
  - destruct (Ascii.eqb_spec a c) as [->|Hne].
    + right. exists EmptyString, s. split; [intros []|reflexivity].
    + destruct IH as [Hl|(k & v & Hl & ->)].
      * left. unfold lacks. simpl. intros [->|Hin]; [now apply Hne|now apply Hl].
      * right. exists (String a k), v. split; [|reflexivity].
        unfold lacks. simpl. intros [->|Hin]; [now apply Hne|now apply Hl].
Qed.

Lemma slice_key (k v : string) (c : ascii) :
  Js.slice (k +:+ String c v) 0 (Z.of_nat (String.length k)) = k.
Proof.
  unfold Js.slice, Js.clamp_index. rewrite length_append. simpl String.length.
  replace (0 <? 0) with false by reflexivity.
  destruct (Z.ltb_spec (Z.of_nat (String.length k)) 0) as [Hneg|_]; [lia|].
  rewrite !Z.min_l by lia.
  rewrite Z.sub_0_r, Nat2Z.id. simpl. apply str_take_append.
Qed.

Lemma slice_from_value (k v : string) (c : ascii) :
  Js.slice_from (k +:+ String c v) (Z.of_nat (String.length k) + 1) = v.
Proof.
  unfold Js.slice_from, Js.slice, Js.clamp_index.
  rewrite length_append. simpl String.length.
  set (lk := String.length k). set (lv := String.length v).
  destruct (Z.ltb_spec (Z.of_nat lk + 1) 0) as [Hneg|_]; [lia|].
  destruct (Z.ltb_spec (Z.of_nat (lk + S lv)) 0) as [Hneg|_]; [lia|].
  rewrite !Z.min_l by lia.
  replace (Z.to_nat (Z.of_nat lk + 1)) with (S lk) by lia.
  replace (Z.to_nat (Z.of_nat (lk + S lv) - (Z.of_nat lk + 1))) with lv by lia.
  assert (Hd : Js.str_drop (S lk) (k +:+ String c v) = v).
  { clear. subst lk. induction k as [|a k IH]; [reflexivity|].
    rewrite append_cons. simpl. exact IH. }
  rewrite Hd. apply str_take_all.
Qed.

End StringFacts.

(** ** Environment capture: [loadUserShellEnv] *)



(** The whole output of [env], line by line. *)
Example parse_env_sample :
  Main.parse_env ("A=1" +:+ Main.newline +:+ "KEY=V1=V2" +:+ Main.newline +:+ "=x"
                  +:+ Main.newline +:+ "junk" +:+ Main.newline)
  = <["KEY" := "V1=V2"]> (<["A" := "1"]> ∅).
Proof. vm_compute. reflexivity. Qed.

(** C6. [loadUserShellEnv] completes normally whatever [execFileSync] does:
    when the shell cannot be run, runs past the timeout or fails, the function
    returns the empty object and writes one warning; otherwise it returns the
    parsed output.  The startup handler therefore always goes on after the
    capture. *)
Theorem loadUserShellEnv_never_throws (h : Main.host)
  (execFileSync : string -> list string -> Main.completion string) :
  let shell := Js.or_else (Main.process_env h !! "SHELL") "/bin/zsh" in
  exists (out : list Main.log_entry) (shellEnv : gmap string string),
    Main.loadUserShellEnv h execFileSync = (out, Main.Normal shellEnv)
    /\ (forall e, execFileSync shell ["-ilc"; "env"] = Main.Throw e ->
          shellEnv = ∅ /\ out = [Main.Warn "Failed to load user shell env:" e])
    /\ (forall result, execFileSync shell ["-ilc"; "env"] = Main.Normal result ->
          shellEnv = Main.parse_env result)
    /\ (forall st, snd (Main.on_ready h execFileSync st)
                   = if Main.isDev h then None else Some Main.ReadyAwaitPort).
Proof.
  intros shell.
  assert (Hload : exists out shellEnv,
    Main.loadUserShellEnv h execFileSync = (out, Main.Normal shellEnv)
    /\ (forall e, execFileSync shell ["-ilc"; "env"] = Main.Throw e ->
          shellEnv = ∅ /\ out = [Main.Warn "Failed to load user shell env:" e])
    /\ (forall result, execFileSync shell ["-ilc"; "env"] = Main.Normal result ->
          shellEnv = Main.parse_env result)).
  { unfold Main.loadUserShellEnv, Main.loadUserShellEnv_try, Main.try_catch.
    unfold mbind, Main.eff_bind, mret, Main.eff_ret, Main.bind, Main.console, Main.ret.
    fold shell. destruct (execFileSync shell ["-ilc"; "env"]) as [result|e]; simpl.
    - eexists _, _. split; [reflexivity|]. split; [discriminate|].
      intros r [= <-]. reflexivity.
    - eexists _, _. split; [reflexivity|]. split; [|discriminate].
      intros e' [= <-]. split; reflexivity. }
  destruct Hload as (out & shellEnv & Heq & Hthrow & Hnormal).
  exists out, shellEnv. split; [assumption|]. split; [assumption|].
  split; [assumption|].
  intros st. unfold Main.on_ready. rewrite Heq. now destruct (Main.isDev h).
Qed.

(** A packaged application on macOS, started from the Dock: [process.env]
    is the short environment of a GUI process. *)
Definition dock_host : Main.host := {|
  Main.isDev := false;
  Main.platform := "darwin";
  Main.process_env :=
    <["API_KEY" := "stale"]> (<["PATH" := "/usr/bin:/bin"]> (<["SHELL" := "/bin/zsh"]> ∅));
  Main.homedir := "/Users/dev";
  Main.resourcesPath := "/Applications/CodePilot.app/Contents/Resources";
  Main.execPath := "/Applications/CodePilot.app/Contents/MacOS/CodePilot";
  Main.userData := "/Users/dev/Library/Application Support/CodePilot"
|}.

(** A login shell that does not answer within the five seconds. *)
Definition shell_times_out : string -> list string -> Main.completion string :=
  fun _ _ => Main.Throw (Js.ErrorObj "spawnSync /bin/zsh ETIMEDOUT").

Lemma loadUserShellEnv_never_throws_witness :
  exists out : list Main.log_entry,
    Main.loadUserShellEnv dock_host shell_times_out = (out, Main.Normal ∅).
Proof.
  destruct (loadUserShellEnv_never_throws dock_host shell_times_out)
    as (out & shellEnv & Heq & Hthrow & _).
  exists out. rewrite Heq.
  destruct (Hthrow (Js.ErrorObj "spawnSync /bin/zsh ETIMEDOUT") eq_refl) as [-> _].
  reflexivity.
Defined.

(** ** The environment of the child: [startServer], lines 172-183 *)

(** The six properties written after the spreads. *)
Definition fixed_overrides (h : Main.host) (shellEnv : gmap string string) (port : Z)
  : list (string * string) :=
  [ ("PORT", pretty port);
    ("HOSTNAME", "127.0.0.1");
    ("CLAUDE_GUI_DATA_DIR", Main.userData h);
    ("ELECTRON_RUN_AS_NODE", "1");
    ("HOME", Main.homedir h);
    ("PATH", Main.basePath +:+ ":" +:+ Main.homedir h +:+ "/.npm-global/bin:"
             +:+ Main.homedir h +:+ "/.local/bin:" +:+ Main.homedir h
             +:+ "/.claude/bin:" +:+ Main.shellPath h shellEnv) ].


(** Lookup in the layers, highest first. *)
Definition layered_lookup (h : Main.host) (shellEnv : gmap string string) (port : Z)
  (k : string) : option string :=
  match (list_to_map (fixed_overrides h shellEnv port) : gmap string string) !! k with
  | Some v => Some v
  | None =>
      match shellEnv !! k with
      | Some v => Some v
      | None =>
          match Main.process_env h !! k with
          | Some v => Some v
          | None => shellEnv !! k
          end
      end
  end.

Lemma server_env_lookup (h : Main.host) (shellEnv : gmap string string) (port : Z)
  (k : string) :
  Main.server_env h shellEnv port !! k = layered_lookup h shellEnv port k.
Proof.
  unfold Main.server_env, Main.object_literal, layered_lookup, fixed_overrides.
  cbn [fold_left Main.apply_entry list_to_map foldr fst snd uncurry].
  rewrite !lookup_insert, !lookup_union, lookup_empty.
  repeat case_decide; simplify_eq; try reflexivity.
  destruct (shellEnv !! k), (Main.process_env h !! k); reflexivity.
Qed.



(** ** The path guard *)

Section GuardFacts.

Variable sep : ascii.

Lemma seg_prefix_spec (b c : list string) :
  Files.seg_prefix b c = true <-> exists ext, c = b ++ ext.
Proof.
  revert c. induction b as [|x b IH]; intros c; simpl.
  - split; [intros _; now exists c|reflexivity].
  - destruct c as [|y c].
    + split; [discriminate|]. intros [ext Hext]. discriminate.
    + rewrite andb_true_iff, String.eqb_eq, IH. split.
      * intros [-> [ext ->]]. now exists ext.
      * intros [ext Hext]. injection Hext as -> ->. split; [reflexivity|now exists ext].
Qed.

(** The path that a sequence of segments spells: a separator before each. *)
Definition join_segments (segs : list string) : string :=
  fold_right (fun s acc => String sep s +:+ acc) EmptyString segs.

(** An absolute, normalized path below the root: it has a segment, and it is
    spelled by its own segments (no empty segment, no trailing separator). *)
Definition canonical (p : string) : Prop :=
  Files.segments sep p <> [] /\ p = join_segments (Files.segments sep p).

Lemma split_nonempty (s : string) : Js.split sep s <> [].
Proof.
  destruct s as [|a s]; simpl; [discriminate|].
  destruct (Ascii.eqb a sep); [discriminate|].
  destruct (Js.split sep s); discriminate.
Qed.

Lemma split_at_separator (a b : string) :
  Js.split sep (a +:+ String sep b) = Js.split sep a ++ Js.split sep b.
Proof.
  induction a as [|x a IH].
  - rewrite append_nil_l. simpl. now rewrite Ascii.eqb_refl.
  - rewrite append_cons. simpl. destruct (Ascii.eqb x sep).
    + now rewrite IH.
    + rewrite IH. pose proof (split_nonempty a) as Hne.
      destruct (Js.split sep a) as [|h t]; [contradiction|reflexivity].
Qed.

Lemma segments_at_separator (a b : string) :
  Files.segments sep (a +:+ String sep b) = Files.segments sep a ++ Files.segments sep b.
Proof. unfold Files.segments. now rewrite split_at_separator, List.filter_app. Qed.

Lemma append_assoc (a b c : string) : (a +:+ b) +:+ c = a +:+ (b +:+ c).
Proof.
  induction a as [|x a IH]; [reflexivity|]. rewrite !append_cons. now rewrite IH.
Qed.

Lemma append_nil_r (a : string) : a +:+ EmptyString = a.
Proof. induction a as [|x a IH]; [reflexivity|]. rewrite append_cons. now rewrite IH. Qed.

Lemma join_segments_app (l1 l2 : list string) :
  join_segments (l1 ++ l2) = join_segments l1 +:+ join_segments l2.
Proof.
  induction l1 as [|s l1 IH]; simpl; [reflexivity|].
  rewrite IH. rewrite !append_cons. now rewrite append_assoc.
Qed.

(** C2. [isPathSafe base candidate] holds exactly when the candidate is
    the base itself or its segment sequence is the base's followed by further
    segments.  For normalized absolute paths this says: the candidate is the
    base, or the base followed by a separator and more; a candidate that
    continues the base's last segment instead is refused, although the base
    is a prefix of it as a string. *)
Theorem isPathSafe_segmentwise :
  (forall base candidate : string,
      Files.isPathSafe sep base candidate = true
      <-> candidate = base
          \/ exists ext, Files.segments sep candidate = Files.segments sep base ++ ext)
  /\ (forall base candidate : string,
        canonical base -> canonical candidate ->
        (Files.isPathSafe sep base candidate = true
         <-> candidate = base \/ exists rest, candidate = base +:+ String sep rest))
  /\ Files.isPathSafe "/" "/home/alice" "/home/alice/project" = true
  /\ Files.isPathSafe "/" "/home/alice" "/home/alice" = true
  /\ Files.isPathSafe "/" "/home/alice" "/home/alice-2/project" = false
  /\ String.prefix "/home/alice" "/home/alice-2/project" = true
  /\ Files.isPathSafe "/" "/home/alice" "/home" = false.
Proof.
  split; [|split; [|repeat split; reflexivity]].
  - intros base candidate. unfold Files.isPathSafe. rewrite seg_prefix_spec. split.
    + intros H. now right.
    + intros [->|H]; [|exact H]. exists []. now rewrite app_nil_r.
  - intros base candidate [_ Hb] [_ Hc]. unfold Files.isPathSafe.
    rewrite seg_prefix_spec. split.
    + intros [ext Hext]. rewrite Hc, Hext, join_segments_app, <- Hb.
      destruct ext as [|e ext]; simpl.
      * left. apply append_nil_r.
      * right. exists (e +:+ join_segments ext). now rewrite append_cons.
    + intros [->|[rest ->]].
      * exists []. now rewrite app_nil_r.
      * exists (Files.segments sep rest). apply segments_at_separator.
Qed.

End GuardFacts.

Lemma isPathSafe_segmentwise_witness :
  canonical "/" "/home/alice" /\ canonical "/" "/home/alice/project"
  /\ Files.isPathSafe "/" "/home/alice" "/home/alice/project" = true.
Proof.
  assert (Hb : canonical "/" "/home/alice") by (split; [discriminate|reflexivity]).
  assert (Hc : canonical "/" "/home/alice/project") by (split; [discriminate|reflexivity]).
  split; [exact Hb|]. split; [exact Hc|].
  apply (proj1 (proj2 (isPathSafe_segmentwise "/")) _ _ Hb Hc).
  right. exists "project". reflexivity.
Defined.

(** ** The file-preview route *)


Section RouteFacts.

Context {FilePreview : Type}.
Variable resolve : string -> string.
Variable homedir : string.
Variable isRootPath : string -> bool.
Variable isPathSafe : string -> string -> bool.
Variable readFilePreview : string -> Js.number -> Js.thrown + FilePreview.

Local Abbreviation GET :=
  (Preview.GET resolve homedir isRootPath isPathSafe readFilePreview).
Local Abbreviation sandbox :=
  (Preview.sandbox (FilePreview := FilePreview) resolve homedir isRootPath isPathSafe).

(** The number of lines the request asks for: [maxLines] of line 10. *)
Definition requested (req : Preview.request) : Js.number :=
  Js.parseInt (Js.or_else (Preview.q_maxLines req) "200").

(** The request passes the check that applies to it. *)
Definition permitted (req : Preview.request) : bool :=
  let resolvedPath := resolve (default EmptyString (Preview.q_path req)) in
  if Js.truthy (Preview.q_baseDir req) then
    let resolvedBase := resolve (default EmptyString (Preview.q_baseDir req)) in
    negb (isRootPath resolvedBase) && isPathSafe resolvedBase resolvedPath
  else isPathSafe homedir resolvedPath.



Lemma sandbox_verdict (req : Preview.request) :
  let resolvedPath := resolve (default EmptyString (Preview.q_path req)) in
  match snd (sandbox (Preview.q_baseDir req) resolvedPath) with
  | Some refusal => permitted req = false /\ Preview.status refusal = 403
  | None => permitted req = true
  end.
Proof.
  unfold Preview.sandbox, permitted.
  destruct (Js.truthy (Preview.q_baseDir req));
    [destruct (isRootPath _); [now split|]|];
    destruct (isPathSafe _ _); simpl; auto.
Qed.








End RouteFacts.

(** A home directory, a working directory for the server, and a reader
    that returns the path it was asked for. *)
Definition sample_reader : string -> Js.number -> Js.thrown + list string :=
  fun path _ => inr ["contents of " +:+ path].

Definition sample_GET : Preview.request -> list Preview.call * Preview.response (list string) :=
  Preview.GET (Files.posix_resolve "/srv/codepilot") "/home/alice"
    (Files.isRootPath "/") (Files.isPathSafe "/") sample_reader.




(** ** The listeners and the handle *)

(** The handle in [serverProcess], when there is one, refers to a child
    that has not exited. *)
Definition handle_is_live (st : Main.state) : Prop :=
  match Main.serverProcess st with
  | Some pid => Main.is_live st pid = true
  | None => True
  end.

Lemma handle_is_live_no_exit (st : Main.state) :
  handle_is_live st -> Main.observed_exit st = None.
Proof.
  unfold handle_is_live, Main.observed_exit, Main.is_live, Main.running.
  destruct (Main.serverProcess st) as [pid|]; [|reflexivity].
  destruct (Main.children st !! pid) as [c|]; [|reflexivity].
  destruct (Main.exitCode c); [discriminate|reflexivity].
Qed.

Lemma deliver_keeps_handle_live (st : Main.state) (ev : Main.child_event) :
  handle_is_live st -> handle_is_live (Main.deliver st ev).
Proof.
  intros Hl. destruct ev as [pid data|pid data|pid code signal]; simpl.
  - destruct (Main.spawned st pid); exact Hl.
  - destruct (Main.spawned st pid); exact Hl.
  - destruct (Main.is_live st pid); [exact I|exact Hl].
Qed.

Lemma deliver_all_keeps_handle_live (evs : list Main.child_event) (st : Main.state) :
  handle_is_live st -> handle_is_live (Main.deliver_all st evs).
Proof.
  revert st. induction evs as [|ev evs IH]; intros st Hl; [exact Hl|].
  apply IH. now apply deliver_keeps_handle_live.
Qed.


(** ** The health-check poller: [waitForServer] *)

Definition probe_fails (t : Main.turn) : Prop :=
  fst (Main.probe (Main.reply t)) <> Main.Resolved.

(** The milliseconds one failed iteration takes: the probe, then the sleep. *)
Definition turn_ms (t : Main.turn) : Z :=
  snd (Main.probe (Main.reply t)) + 200 + Z.of_nat (Main.timer_lag t).

Definition turns_ms (ts : list Main.turn) : Z :=
  fold_right (fun t acc => turn_ms t + acc) 0 ts.

(** The state after the child events of one failed iteration. *)
Definition after_turn (st : Main.state) (t : Main.turn) : Main.state :=
  Main.deliver_all (Main.deliver_all st (Main.during_probe t)) (Main.during_sleep t).

Lemma probe_elapsed (r : Main.net_reply) : 0 <= snd (Main.probe r) <= 1000.
Proof.
  destruct r as [code lat|lat|]; simpl; [| |lia];
    destruct (Z.ltb_spec (Z.of_nat lat) 1000); simpl; lia.
Qed.

Lemma probe_resolved_iff (r : Main.net_reply) :
  fst (Main.probe r) = Main.Resolved
  <-> exists latency, r = Main.Reply 200 latency /\ (latency < 1000)%nat.
Proof.
  split.
  - destruct r as [code lat|lat|]; simpl; [| |discriminate].
    + destruct (Z.ltb_spec (Z.of_nat lat) 1000); simpl; [|discriminate].
      destruct (Z.eqb_spec code 200); [|discriminate].
      intros _. subst. exists lat. split; [reflexivity|lia].
    + destruct (Z.of_nat lat <? 1000); discriminate.
  - intros (lat & -> & Hlat). simpl.
    destruct (Z.ltb_spec (Z.of_nat lat) 1000); [reflexivity|lia].
Qed.

Lemma turn_ms_pos (t : Main.turn) : 200 <= turn_ms t.
Proof. unfold turn_ms. pose proof (probe_elapsed (Main.reply t)). lia. Qed.

Lemma turns_ms_nonneg (ts : list Main.turn) : 0 <= turns_ms ts.
Proof.
  induction ts as [|t ts IH]; simpl; [lia|]. pose proof (turn_ms_pos t). lia.
Qed.

Lemma after_turn_keeps_handle_live (st : Main.state) (t : Main.turn) :
  handle_is_live st -> handle_is_live (after_turn st t).
Proof. intros Hl. unfold after_turn. now do 2 apply deliver_all_keeps_handle_live. Qed.

(** Failed probes are retried: while the deadline has not passed, the
    loop goes through the iterations whose probe fails, one sleep each. *)
Lemma waitForServer_loop_retries (port timeout start : Z) (failed rest : list Main.turn) :
  forall (now : Z) (sent : nat) (st : Main.state),
    handle_is_live st ->
    Forall probe_fails failed ->
    now + turns_ms failed - start < timeout ->
    Main.waitForServer_loop port timeout start (failed ++ rest) now sent st
    = Main.waitForServer_loop port timeout start rest (now + turns_ms failed)
        (sent + length failed) (fold_left after_turn failed st).
Proof.
  induction failed as [|t failed IH]; intros now sent st Hl Hf Ht.
  - simpl. f_equal; lia.
  - inversion Hf as [|? ? Hft Hf']; subst.
    change (turns_ms (t :: failed)) with (turn_ms t + turns_ms failed) in *.
    pose proof (turns_ms_nonneg failed) as Hnn.
    pose proof (turn_ms_pos t) as Hpos.
    rewrite <- app_comm_cons. simpl Main.waitForServer_loop.
    destruct (Z.ltb_spec (now - start) timeout) as [_|]; [|lia].
    rewrite (handle_is_live_no_exit st Hl).
    unfold probe_fails in Hft. unfold turn_ms in Ht |- * at 1.
    destruct (Main.probe (Main.reply t)) as [answer elapsed] eqn:Hp.
    simpl in Hft, Ht |- *. destruct answer as [|e]; [congruence|].
    rewrite IH.
    + f_equal; lia.
    + change (handle_is_live (after_turn st t)). now apply after_turn_keeps_handle_live.
    + assumption.
    + lia.
Qed.

(** The main process right after [serverProcess = startServer(49152)] in a
    packaged application: one child, and the handle refers to it. *)
Definition started : Main.state :=
  let '(st, child) := Main.startServer dock_host 49152 Main.initial in
  Main.set_serverProcess (Some child) st.

(** A probe that finds nobody listening. *)
Definition refused : Main.turn := {|
  Main.reply := Main.NetError 1;
  Main.during_probe := [];
  Main.during_sleep := [];
  Main.timer_lag := 0
|}.

(** C9. [waitForServer] resolves at the first probe that is answered 200
    within its own second, whatever number of probes failed before it, as long
    as that probe is sent before the deadline; a probe resolves only on a 200
    (every other status, a connection error and silence reject it, and the
    loop sleeps and probes again); a probe settles within 1000 ms of being
    sent, independently of the deadline, which is 30000 ms when the caller
    gives none. *)
Theorem waitForServer_first_200_wins :
  (forall (port : Z) (timeout : option Z) (now : Z) (st : Main.state)
          (failed : list Main.turn) (ok : Main.turn) (rest : list Main.turn)
          (latency : nat),
      handle_is_live st ->
      Forall probe_fails failed ->
      Main.reply ok = Main.Reply 200 latency -> (latency < 1000)%nat ->
      turns_ms failed < default 30000 timeout ->
      Main.waitForServer port timeout (failed ++ ok :: rest) now st
      = Some {| Main.result := Main.Resolved;
                Main.ended_at := now + turns_ms failed + Z.of_nat latency;
                Main.final := Main.deliver_all (fold_left after_turn failed st)
                                (Main.during_probe ok);
                Main.probes := S (length failed) |})
  /\ (forall r : Main.net_reply,
        fst (Main.probe r) = Main.Resolved
        <-> exists latency, r = Main.Reply 200 latency /\ (latency < 1000)%nat)
  /\ (forall r : Main.net_reply, 0 <= snd (Main.probe r) <= 1000)
  /\ (forall port script now st,
        Main.waitForServer port None script now st
        = Main.waitForServer port (Some 30000) script now st).
Proof.
  split; [|split; [exact probe_resolved_iff|split; [exact probe_elapsed|reflexivity]]].
  intros port timeout now st failed ok rest latency Hl Hf Hok Hlat Ht.
  unfold Main.waitForServer.
  rewrite waitForServer_loop_retries by (assumption || lia).
  pose proof (turns_ms_nonneg failed) as Hnn.
  assert (Hl' : handle_is_live (fold_left after_turn failed st)).
  { clear -Hl. revert st Hl. induction failed as [|t failed IH]; intros st Hl; [exact Hl|].
    simpl. apply IH. now apply after_turn_keeps_handle_live. }
  simpl Main.waitForServer_loop.
  destruct (Z.ltb_spec (now + turns_ms failed - now) (default 30000 timeout)) as [_|]; [|lia].
  rewrite (handle_is_live_no_exit _ Hl'). rewrite Hok. simpl Main.probe.
  destruct (Z.ltb_spec (Z.of_nat latency) 1000) as [_|]; [|lia].
  simpl. reflexivity.
Qed.

Lemma waitForServer_first_200_wins_witness :
  let unavailable := {| Main.reply := Main.Reply 503 20; Main.during_probe := [];
                        Main.during_sleep := []; Main.timer_lag := 3 |} in
  let ready := {| Main.reply := Main.Reply 200 5; Main.during_probe := [];
                  Main.during_sleep := []; Main.timer_lag := 0 |} in
  option_map (fun r => (Main.result r, Main.ended_at r, Main.probes r))
    (Main.waitForServer 49152 None ([refused; unavailable] ++ ready :: [refused]) 1000 started)
  = Some (Main.Resolved, 1429, 3%nat).
Proof.
  intros unavailable ready.
  rewrite (proj1 waitForServer_first_200_wins 49152 None 1000 started
             [refused; unavailable] ready [refused] 5%nat).
  - reflexivity.
  - vm_compute. reflexivity.
  - repeat constructor; vm_compute; discriminate.
  - reflexivity.
  - lia.
  - vm_compute. reflexivity.
Defined.


(** The loop ends: a script with one turn per 200 ms left to the deadline is
    long enough. *)
Lemma waitForServer_loop_total (port timeout start : Z) (script : list Main.turn) :
  forall (now : Z) (sent : nat) (st : Main.state),
    timeout - (now - start) <= 200 * Z.of_nat (length script) ->
    exists r, Main.waitForServer_loop port timeout start script now sent st = Some r.
Proof.
  induction script as [|t script IH]; intros now sent st Hlen; simpl;
    destruct (Z.ltb_spec (now - start) timeout) as [Hlt|Hge]; try (eexists; reflexivity).
  - simpl in Hlen. lia.
  - destruct (Main.observed_exit st); [eexists; reflexivity|].
    pose proof (probe_elapsed (Main.reply t)) as He.
    destruct (Main.probe (Main.reply t)) as [answer elapsed].
    destruct answer as [|e]; [eexists; reflexivity|].
    apply IH. simpl in He, Hlen. lia.
Qed.

Definition crash_turn : Main.turn := {|
  Main.reply := Main.NetError 1;
  Main.during_probe := [Main.StderrData 0 "Error: Cannot find module"; Main.Exit 0 (Some 1) None];
  Main.during_sleep := [];
  Main.timer_lag := 0
|}.

(** C8 on the code.  The child writes one line to stderr and exits with
    code 1 while the first probe is in flight; every probe is refused.  The
    [exit] listener has cleared [serverProcess], so the test of line 126 is
    false on every later iteration: the loop sends 150 probes and fails only
    when the 30 seconds are over, with the timeout error. *)
Theorem crash_during_polling_runs_to_deadline :
  exists r : Main.run,
    Main.waitForServer 49152 None (crash_turn :: repeat refused 149) 0 started = Some r
    /\ Main.result r
       = Main.Rejected (Js.ErrorObj
           ("Server startup timeout after 30s." +:+ Main.newline +:+ Main.newline
            +:+ "Server output:" +:+ Main.newline +:+ "Error: Cannot find module"))
    /\ Main.ended_at r = 30150
    /\ Main.probes r = 150%nat
    /\ Main.exitCode <$> (Main.children (Main.final r) !! 0%nat) = Some (Some 1)
    /\ Main.serverProcess (Main.final r) = None.
Proof.
  destruct (waitForServer_loop_total 49152 30000 0 (crash_turn :: repeat refused 149)
              0 0%nat started) as [r Hr].
  { rewrite length_cons, repeat_length. lia. }
  exists r. split; [exact Hr|].
  vm_compute in Hr. injection Hr as <-.
  repeat split; reflexivity.
Qed.

(** ** The diagnostic buffer: [serverErrors] *)














(** ** The single-instance guard of the event handlers *)

(** A state that differs from another one neither in the handle nor in the
    child processes. *)
Definition same_server (st st' : Main.state) : Prop :=
  Main.serverProcess st' = Main.serverProcess st /\ Main.children st' = Main.children st.


Lemma same_server_write_all (out : list Main.log_entry) (st : Main.state) :
  same_server st (fold_left (fun s l => Main.write l s) out st).
Proof.
  revert st. induction out as [|l out IH]; intros st; simpl; [now split|].
  destruct (IH (Main.write l st)) as [Hp Hc]. split; [now rewrite Hp|now rewrite Hc].
Qed.




Section EventLoopFacts.

Variable h : Main.host.
Variable execFileSync : string -> list string -> Main.completion string.

Local Abbreviation step := (Main.step h execFileSync).
Local Abbreviation run_events := (Main.run_events h execFileSync).


(** The test of line 296: the [activate] handler goes on to [getPort] and
    [startServer] only when [serverProcess] is [null] (and no window is
    open, in a packaged application), and spawns nothing itself. *)
Lemma on_activate_guard (st : Main.state) (t : Main.task) :
  snd (Main.on_activate h st) = Some t ->
  t = Main.ActivateAwaitPort /\ Main.serverProcess st = None
  /\ Main.isDev h = false /\ Main.windows st = [] /\ fst (Main.on_activate h st) = st.
Proof.
  unfold Main.on_activate.
  destruct (Main.windows st) as [|w ws]; simpl; [|discriminate].
  destruct (Main.isDev h); simpl; [discriminate|].
  destruct (Main.serverProcess st) as [pid|]; simpl; [discriminate|].
  intros [= <-]. auto.
Qed.

Lemma on_activate_same_server (st : Main.state) :
  same_server st (fst (Main.on_activate h st)).
Proof.
  unfold Main.on_activate.
  destruct (length (Main.windows st) =? 0)%nat; [|now split].
  destruct (negb (Main.isDev h) && _); now split.
Qed.




End EventLoopFacts.

(** A login shell that answers. *)
Definition shell_answers : string -> list string -> Main.completion string :=
  fun _ _ => Main.Normal ("PATH=/opt/homebrew/bin:/usr/bin:/bin" +:+ Main.newline
                          +:+ "ANTHROPIC_API_KEY=key" +:+ Main.newline).

(** On macOS: the application starts and shows its window; the user closes
    the window (the server is sent its signal and the handle is cleared)
    and clicks the Dock icon at once; the new server is spawned before the
    old one has gone; then the old one's [exit] arrives.  Later the user
    closes the window and clicks the Dock icon again. *)
Definition stale_exit_trace : list Main.event := [
  Main.Ready;
  Main.PortSettled 0 (Main.Normal 49152);
  Main.ServerSettled 0 Main.Resolved;
  Main.WindowClosed 0;
  Main.Activate;
  Main.PortSettled 0 (Main.Normal 49153);
  Main.Child (Main.Exit 0 None (Some "SIGTERM"));
  Main.ServerSettled 0 Main.Resolved;
  Main.WindowClosed 1;
  Main.Activate;
  Main.PortSettled 0 (Main.Normal 49154)
].

(** C3 on the code.  The [exit] listener of the first server clears
    [serverProcess] while the second server is running, so nothing sends the
    second one a signal when the window is closed, and the next [activate]
    finds [serverProcess] empty and spawns a third: two servers run side by
    side, and only one of them is held by [serverProcess]. *)
Theorem stale_exit_leaves_two_servers :
  let after_exit :=
    Main.st (Main.run_events dock_host shell_answers Main.boot (take 7 stale_exit_trace)) in
  let final :=
    Main.st (Main.run_events dock_host shell_answers Main.boot stale_exit_trace) in
  Main.live_children after_exit = [1%nat]
  /\ Main.serverProcess after_exit = None
  /\ Main.live_children final = [1%nat; 2%nat]
  /\ Main.killed <$> (Main.children final !! 1%nat) = Some false
  /\ Main.killed <$> (Main.children final !! 2%nat) = Some false
  /\ Main.serverProcess final = Some 2%nat
  /\ Main.quitting final = false.
Proof. vm_compute. repeat split; reflexivity. Qed.

(** The startup handler makes no test at all before it calls [startServer]:
    when [activate] fires while it awaits [getPort], the [activate] handler
    starts a server first, and the startup handler then starts another one
    although [serverProcess] holds a live handle, which it overwrites. *)
Lemma activate_during_startup_spawns_two :
  let before :=
    Main.st (Main.run_events dock_host shell_answers Main.boot
               [Main.Ready; Main.Activate; Main.PortSettled 1 (Main.Normal 49153)]) in
  let final :=
    Main.st (Main.step dock_host shell_answers
               (Main.run_events dock_host shell_answers Main.boot
                  [Main.Ready; Main.Activate; Main.PortSettled 1 (Main.Normal 49153)])
               (Main.PortSettled 0 (Main.Normal 49152))) in
  Main.serverProcess before = Some 0%nat
  /\ Main.live_children before = [0%nat]
  /\ Main.live_children final = [0%nat; 1%nat]
  /\ Main.serverProcess final = Some 1%nat.
Proof. vm_compute. repeat split; reflexivity. Qed.

(** * Further properties of the code *)

(** ** The file-preview route: responses and empty parameters *)

Section RouteResponses.

Context {FilePreview : Type}.
Variable resolve : string -> string.
Variable homedir : string.
Variable isRootPath : string -> bool.
Variable isPathSafe : string -> string -> bool.
Variable readFilePreview : string -> Js.number -> Js.thrown + FilePreview.

Local Abbreviation GET :=
  (Preview.GET resolve homedir isRootPath isPathSafe readFilePreview).
Local Abbreviation permitted := (permitted resolve homedir isRootPath isPathSafe).

(** What the reader does for a request, when the handler gets to it. *)
Definition read_result (req : Preview.request) : Js.thrown + FilePreview :=
  readFilePreview (resolve (default EmptyString (Preview.q_path req)))
    (Js.Math_min (requested req) (Js.Num 1000)).

Lemma GET_response (req : Preview.request) :
  snd (GET req)
  = if negb (Js.truthy (Preview.q_path req)) then
      Preview.reject 400 "Missing path parameter"
    else
      match snd (Preview.sandbox resolve homedir isRootPath isPathSafe
                   (Preview.q_baseDir req)
                   (resolve (default EmptyString (Preview.q_path req)))) with
      | Some refusal => refusal
      | None =>
          match read_result req with
          | inr preview => {| Preview.status := 200;
                              Preview.json := Preview.FilePreviewResponse preview |}
          | inl error => Preview.reject 500 (Js.message_or error "Failed to read file")
          end
      end.
Proof.
  unfold Preview.GET, read_result, requested.
  destruct (negb (Js.truthy (Preview.q_path req))); [reflexivity|].
  destruct (Preview.sandbox _ _ _ _ _ _) as [guards [refusal|]]; reflexivity.
Qed.

(** The answer is 200 with the preview exactly when the request names a
    path, passes the check that applies to it, and the reader returns; it is
    500 exactly when such a request makes the reader throw, and then carries
    the message of the [Error] thrown, or "Failed to read file" for any other
    thrown value.  No other status than 200, 400, 403 and 500 is sent. *)
Theorem GET_status_cases (req : Preview.request) :
  (Preview.status (snd (GET req)) = 200
   <-> Js.truthy (Preview.q_path req) = true /\ permitted req = true
       /\ exists preview, read_result req = inr preview
            /\ Preview.json (snd (GET req)) = Preview.FilePreviewResponse preview)
  /\ (Preview.status (snd (GET req)) = 500
      <-> Js.truthy (Preview.q_path req) = true /\ permitted req = true
          /\ exists error, read_result req = inl error
               /\ Preview.json (snd (GET req))
                  = Preview.ErrorResponse (Js.message_or error "Failed to read file"))
  /\ (Preview.status (snd (GET req)) = 200 \/ Preview.status (snd (GET req)) = 400
      \/ Preview.status (snd (GET req)) = 403 \/ Preview.status (snd (GET req)) = 500).
Proof.
  rewrite GET_response.
  pose proof (sandbox_verdict resolve homedir isRootPath isPathSafe
                (FilePreview := FilePreview) req) as Hv.
  cbv zeta in Hv.
  destruct (Js.truthy (Preview.q_path req)); simpl negb; cbv iota.
  2: { simpl. split; [split; [intros [=]|intros ([=] & _)]|].
       split; [split; [intros [=]|intros ([=] & _)]|]. tauto. }
  destruct (snd (Preview.sandbox _ _ _ _ _ _)) as [refusal|].
  - destruct Hv as [Hp Hs]. rewrite Hs, Hp.
    split; [split; [intros [=]|intros (_ & [=] & _)]|].
    split; [split; [intros [=]|intros (_ & [=] & _)]|]. tauto.
  - rewrite Hv. destruct (read_result req) as [error|preview]; simpl.
    + split; [split; [intros [=]|intros (_ & _ & p & [=] & _)]|].
      split; [|tauto]. split; [|reflexivity].
      intros _. split; [reflexivity|]. split; [reflexivity|].
      exists error. split; reflexivity.
    + split; [|split; [split; [intros [=]|intros (_ & _ & e & [=] & _)]|tauto]].
      split; [|reflexivity].
      intros _. split; [reflexivity|]. split; [reflexivity|].
      exists preview. split; reflexivity.
Qed.

(** A parameter that is present but empty counts as absent. *)
Definition drop_empty (v : option string) : option string :=
  match v with
  | Some EmptyString => None
  | _ => v
  end.

(** An empty [path], [maxLines] or [baseDir] is handled exactly as a missing
    one: [?path=] is answered 400, [?baseDir=] falls back to the home
    directory, [?maxLines=] to 200. *)
Theorem GET_empty_parameter_is_absent (req : Preview.request) :
  GET req
  = GET {| Preview.q_path := drop_empty (Preview.q_path req);
           Preview.q_maxLines := drop_empty (Preview.q_maxLines req);
           Preview.q_baseDir := drop_empty (Preview.q_baseDir req) |}.
Proof.
  destruct req as [[[|a p]|] [[|b m]|] [[|c d]|]]; reflexivity.
Qed.

End RouteResponses.

Lemma GET_status_cases_witness :
  Preview.status
    (snd (sample_GET {| Preview.q_path := Some "/home/alice/notes.txt";
                        Preview.q_maxLines := None; Preview.q_baseDir := None |})) = 200.
Proof.
  apply (proj1 (GET_status_cases (Files.posix_resolve "/srv/codepilot") "/home/alice"
                  (Files.isRootPath "/") (Files.isPathSafe "/") sample_reader _)).
  split; [reflexivity|]. split; [reflexivity|].
  eexists. split; reflexivity.
Defined.

(** ** Environment capture: the whole output of [env] *)

Abbreviation nl := ("010"%char : ascii) (only parsing).

Lemma lacks_append (c : ascii) (s t : string) :
  lacks c (s +:+ t) <-> lacks c s /\ lacks c t.
Proof.
  unfold lacks. induction s as [|a s IH].
  - rewrite append_nil_l. simpl. tauto.
  - rewrite append_cons. simpl. tauto.
Qed.


Lemma split_pieces_lack (c : ascii) (s piece : string) :
  In piece (Js.split c s) -> lacks c piece.
Proof.
  revert piece. induction s as [|a s IH]; intros piece Hin; simpl in Hin.
  - destruct Hin as [<-|[]]. intros [].
  - destruct (Ascii.eqb_spec a c) as [->|Hne].
    + destruct Hin as [<-|Hin]; [intros []|now apply IH].
    + pose proof (split_nonempty c s) as Hnon.
      destruct (Js.split c s) as [|h t]; [contradiction|].
      destruct Hin as [<-|Hin].
      * unfold lacks. simpl. intros [->|Hin]; [now apply Hne|].
        exact (IH h (or_introl eq_refl) Hin).
      * apply IH. now right.
Qed.

(** A line that assigns: the key is not empty and holds no [=]. *)
Lemma parse_env_line_assign (acc : gmap string string) (key value : string) :
  key <> EmptyString -> lacks "=" key ->
  Main.parse_env_line acc (key +:+ "=" +:+ value) = <[key := value]> acc.
Proof.
  intros Hne Hl. unfold Main.parse_env_line, Js.indexOf.
  change ("=" +:+ value) with (String "=" value).
  rewrite indexOf_from_first by assumption.
  destruct key as [|a key]; [contradiction|].
  destruct (Z.ltb_spec 0 (0 + Z.of_nat (String.length (String a key)))) as [_|Hle];
    [|simpl in Hle; lia].
  rewrite Z.add_0_l, slice_key, slice_from_value. reflexivity.
Qed.

(** What one line does, whatever the line. *)
Lemma parse_env_line_cases (acc : gmap string string) (line : string) :
  Main.parse_env_line acc line = acc
  \/ exists key value, line = key +:+ "=" +:+ value /\ key <> EmptyString
       /\ lacks "=" key /\ Main.parse_env_line acc line = <[key := value]> acc.
Proof.
  destruct (first_occurrence "=" line) as [Hl|(k & v & Hl & ->)].
  - left. unfold Main.parse_env_line, Js.indexOf. now rewrite indexOf_from_lacks.
  - destruct k as [|a k]; [left; reflexivity|].
    right. exists (String a k), v. split; [reflexivity|].
    split; [discriminate|]. split; [assumption|]. now apply parse_env_line_assign.
Qed.









(** Every entry of the captured environment comes from a line of the
    output: its name is not empty and holds neither [=] nor a line break, its
    value holds no line break, and [name=value] is one of the lines. *)
Theorem parse_env_entries_come_from_lines (result k v : string) :
  Main.parse_env result !! k = Some v ->
  k <> EmptyString /\ lacks "=" k /\ lacks nl k /\ lacks nl v
  /\ In (k +:+ "=" +:+ v) (Js.split nl result).
Proof.
  unfold Main.parse_env.
  assert (Hgen : forall (lines : list string) (acc : gmap string string),
    (forall line, In line lines -> lacks nl line) ->
    fold_left Main.parse_env_line lines acc !! k = Some v ->
    acc !! k = Some v
    \/ (k <> EmptyString /\ lacks "=" k /\ lacks nl k /\ lacks nl v
        /\ In (k +:+ "=" +:+ v) lines)).
  { induction lines as [|line lines IH]; intros acc Hnl Hk; [now left|].
    simpl in Hk. apply IH in Hk; [|intros l Hl; apply Hnl; now right].
    destruct Hk as [Hk|(H1 & H2 & H3 & H4 & H5)].
    - destruct (parse_env_line_cases acc line) as [Heq|(key & value & -> & Hne & Hl & Heq)];
        rewrite Heq in Hk; [now left|].
      rewrite lookup_insert in Hk. case_decide as Hkey; [|now left].
      subst key. injection Hk as ->. right.
      pose proof (Hnl _ (or_introl eq_refl)) as Hline.
      apply lacks_append in Hline as [Hknl Hvnl].
      change ("=" +:+ v) with (String "=" v) in Hvnl.
      apply lacks_cons in Hvnl as [_ Hvnl].
      repeat split; try assumption. now left.
    - right. repeat split; try assumption. now right. }
  intros Hk. apply Hgen in Hk.
  - destruct Hk as [Hk|Hk]; [|exact Hk]. rewrite lookup_empty in Hk. discriminate.
  - intros line. apply split_pieces_lack.
Qed.

Lemma parse_env_entries_come_from_lines_witness :
  In ("KEY" +:+ "=" +:+ "V1=V2")
     (Js.split nl ("A=1" +:+ Main.newline +:+ "KEY=V1=V2" +:+ Main.newline)).
Proof.
  apply (parse_env_entries_come_from_lines
           ("A=1" +:+ Main.newline +:+ "KEY=V1=V2" +:+ Main.newline) "KEY" "V1=V2").
  vm_compute. reflexivity.
Defined.

(** ** The child's environment and spawn options *)


(** The options [startServer] spawns a child with, for some captured
    environment and some port. *)
Definition spawned_by (h : Main.host) (c : Main.ChildProcess) : Prop :=
  exists (shellEnv : gmap string string) (port : Z),
    Main.spawnfile c = "/bin/sh"
    /\ Main.spawnargs c
       = ["-c"; "exec " +:+ Main.dquote +:+ Main.execPath h +:+ Main.dquote +:+ " "
                +:+ Main.dquote
                +:+ Main.path_join (Main.path_join (Main.resourcesPath h) "standalone")
                      "server.js"
                +:+ Main.dquote]
    /\ Main.spawn_cwd c = Main.path_join (Main.resourcesPath h) "standalone"
    /\ Main.spawn_env c = Main.server_env h shellEnv port.

Definition children_spawned_by (h : Main.host) (st : Main.state) : Prop :=
  Forall (spawned_by h) (Main.children st).

Lemma spawned_by_alter (h : Main.host) (f : Main.ChildProcess -> Main.ChildProcess)
  (pid : nat) (l : list Main.ChildProcess) :
  (forall c, spawned_by h c -> spawned_by h (f c)) ->
  Forall (spawned_by h) l -> Forall (spawned_by h) (alter f pid l).
Proof.
  intros Hf Hl. apply Forall_lookup. intros i c Hc.
  rewrite list_lookup_alter in Hc. case_decide; [subst|].
  - destruct (l !! i) as [c0|] eqn:Hc0; [|discriminate].
    injection Hc as <-. apply Hf. exact (proj1 (Forall_lookup _ _) Hl _ _ Hc0).
  - exact (proj1 (Forall_lookup _ _) Hl _ _ Hc).
Qed.

Lemma kill_children_spawned_by (h : Main.host) (pid : nat) (st : Main.state) :
  children_spawned_by h st -> children_spawned_by h (Main.kill pid st).
Proof.
  intros Hs. unfold children_spawned_by, Main.kill. simpl.
  apply spawned_by_alter; [|exact Hs]. intros c (e & p & H). now exists e, p.
Qed.

Lemma kill_server_children_spawned_by (h : Main.host) (st : Main.state) :
  children_spawned_by h st -> children_spawned_by h (Main.kill_server st).
Proof.
  intros Hs. unfold Main.kill_server.
  destruct (Main.serverProcess st) as [pid|]; [|exact Hs].
  exact (kill_children_spawned_by h pid st Hs).
Qed.

Lemma deliver_children_spawned_by (h : Main.host) (st : Main.state) (ev : Main.child_event) :
  children_spawned_by h st -> children_spawned_by h (Main.deliver st ev).
Proof.
  intros Hs. destruct ev as [pid data|pid data|pid code signal]; simpl.
  - now destruct (Main.spawned st pid).
  - now destruct (Main.spawned st pid).
  - destruct (Main.is_live st pid); [|exact Hs].
    unfold children_spawned_by. simpl.
    apply spawned_by_alter; [|exact Hs]. intros c (e & p & H). now exists e, p.
Qed.

Lemma startServer_children_spawned_by (h : Main.host) (port : Z) (st : Main.state) :
  children_spawned_by h st ->
  children_spawned_by h (fst (Main.startServer h port st)).
Proof.
  intros Hs. unfold children_spawned_by, Main.startServer. simpl.
  apply Forall_app. split; [exact Hs|].
  apply Forall_cons. split; [|apply Forall_nil; exact I].
  exists (Main.userShellEnv st), port. repeat split; reflexivity.
Qed.

Lemma same_children_spawned_by (h : Main.host) (st st' : Main.state) :
  Main.children st' = Main.children st ->
  children_spawned_by h st -> children_spawned_by h st'.
Proof. unfold children_spawned_by. now intros ->. Qed.

Lemma write_all_children (out : list Main.log_entry) (st : Main.state) :
  Main.children (fold_left (fun s l => Main.write l s) out st) = Main.children st.
Proof. exact (proj2 (same_server_write_all out st)). Qed.

Section SpawnFacts.

Variable h : Main.host.
Variable execFileSync : string -> list string -> Main.completion string.

Lemma app_quit_children_spawned_by (st : Main.state) :
  children_spawned_by h st -> children_spawned_by h (Main.app_quit st).
Proof. intros Hs. exact (kill_server_children_spawned_by h st Hs). Qed.

Lemma step_children_spawned_by (a : Main.app) (e : Main.event) :
  children_spawned_by h (Main.st a) ->
  children_spawned_by h (Main.st (Main.step h execFileSync a e)).
Proof.
  intros Hs. unfold Main.step.
  destruct (Main.quitting (Main.st a)); [exact Hs|].
  destruct e as [| |id| |ev|i r|i r]; simpl.
  - destruct (Main.started a); [exact Hs|]. simpl. unfold Main.on_ready.
    destruct (Main.loadUserShellEnv h execFileSync) as [out [shellEnv|e]].
    + destruct (Main.isDev h); simpl;
        (eapply same_children_spawned_by; [|exact Hs]); simpl; apply write_all_children.
    + simpl. eapply same_children_spawned_by; [|exact Hs]. apply write_all_children.
  - eapply same_children_spawned_by; [|exact Hs].
    exact (proj2 (on_activate_same_server h (Main.st a))).
  - unfold Main.on_window_closed. destruct (existsb _ _); [|exact Hs].
    destruct (List.filter _ _) as [|w ws]; [|exact Hs].
    unfold Main.on_window_all_closed.
    destruct (negb _);
      [apply app_quit_children_spawned_by|]; now apply kill_server_children_spawned_by.
  - now apply app_quit_children_spawned_by.
  - now apply deliver_children_spawned_by.
  - destruct (Main.pending a !! i) as [[| | |]|]; try exact Hs;
      destruct r as [port|err]; simpl; try exact Hs.
    + exact (startServer_children_spawned_by h port
               (Main.write (Main.Log ("Starting server on port " +:+ pretty port +:+ "..."))
                  (Main.st a)) Hs).
    + now apply app_quit_children_spawned_by.
    + exact (startServer_children_spawned_by h port (Main.st a) Hs).
  - destruct (Main.pending a !! i) as [[| | |]|]; try exact Hs;
      destruct r as [|err]; simpl; try exact Hs;
      now apply app_quit_children_spawned_by.
Qed.

Lemma reachable_children_spawned_by (es : list Main.event) :
  children_spawned_by h (Main.st (Main.run_events h execFileSync Main.boot es)).
Proof.
  assert (Hgen : forall a, children_spawned_by h (Main.st a) ->
    children_spawned_by h (Main.st (Main.run_events h execFileSync a es))).
  { induction es as [|e es IH]; intros a Hs; [exact Hs|].
    simpl. apply IH. now apply step_children_spawned_by. }
  apply Hgen. apply Forall_nil. exact I.
Qed.

(** Whatever the events, every child process the application has spawned
    was started by [/bin/sh] in the standalone directory with an environment
    built by [startServer]: it is told to listen on the loopback address only,
    to run Electron as Node, and is given the user's home and the
    application's data directory, and a port. *)
Theorem reachable_children_listen_on_loopback (es : list Main.event) (pid : nat)
  (c : Main.ChildProcess) :
  Main.children (Main.st (Main.run_events h execFileSync Main.boot es)) !! pid = Some c ->
  Main.spawnfile c = "/bin/sh"
  /\ Main.spawn_cwd c = Main.path_join (Main.resourcesPath h) "standalone"
  /\ Main.spawn_env c !! "HOSTNAME" = Some "127.0.0.1"
  /\ Main.spawn_env c !! "ELECTRON_RUN_AS_NODE" = Some "1"
  /\ Main.spawn_env c !! "HOME" = Some (Main.homedir h)
  /\ Main.spawn_env c !! "CLAUDE_GUI_DATA_DIR" = Some (Main.userData h)
  /\ exists port : Z, Main.spawn_env c !! "PORT" = Some (pretty port).
Proof.
  intros Hc.
  pose proof (proj1 (Forall_lookup _ _) (reachable_children_spawned_by es) _ _ Hc)
    as (shellEnv & port & Hfile & _ & Hcwd & Henv).
  rewrite Henv, !server_env_lookup.
  split; [exact Hfile|]. split; [exact Hcwd|].
  repeat split; try reflexivity. now exists port.
Qed.

End SpawnFacts.

Lemma reachable_children_listen_on_loopback_witness :
  exists c : Main.ChildProcess,
    Main.children (Main.st (Main.run_events dock_host shell_answers Main.boot
                              (take 6 stale_exit_trace))) !! 1%nat = Some c
    /\ Main.spawn_env c !! "HOSTNAME" = Some "127.0.0.1".
Proof.
  destruct (Main.children (Main.st (Main.run_events dock_host shell_answers Main.boot
                                      (take 6 stale_exit_trace))) !! 1%nat)
    as [c|] eqn:Hc; [|vm_compute in Hc; discriminate Hc].
  exists c. split; [reflexivity|].
  exact (proj1 (proj2 (proj2
    (reachable_children_listen_on_loopback dock_host shell_answers _ _ _ Hc)))).
Defined.

(** ** The health-check poller: bounds and effects *)


Lemma waitForServer_loop_budget (port timeout start : Z) (script : list Main.turn) :
  forall (now : Z) (sent : nat) (st : Main.state) (r : Main.run),
    200 * Z.of_nat sent <= now - start ->
    Main.waitForServer_loop port timeout start script now sent st = Some r ->
    Main.probes r = sent
    \/ ((sent < Main.probes r)%nat /\ 200 * (Z.of_nat (Main.probes r) - 1) < timeout).
Proof.
  induction script as [|t script IH]; intros now sent st r Hsent Hrun;
    simpl in Hrun;
    destruct (Z.ltb_spec (now - start) timeout) as [Hlt|Hge];
    try (injection Hrun as <-; now left);
    destruct (Main.observed_exit st);
    try (injection Hrun as <-; now left); try discriminate.
  pose proof (probe_elapsed (Main.reply t)) as He.
  destruct (Main.probe (Main.reply t)) as [answer elapsed].
  destruct answer as [|e].
  - injection Hrun as <-. simpl. right. split; lia.
  - apply IH in Hrun; [|simpl in He; lia].
    right. destruct Hrun as [Heq|[Hlt' Hb]]; [rewrite Heq|]; split; lia.
Qed.

Lemma waitForServer_loop_probes_le (port timeout start : Z) (script : list Main.turn) :
  forall (now : Z) (sent : nat) (st : Main.state) (r : Main.run),
    Main.waitForServer_loop port timeout start script now sent st = Some r ->
    (Main.probes r <= length script + sent)%nat.
Proof.
  induction script as [|t script IH]; intros now sent st r Hrun;
    simpl in Hrun;
    destruct (Z.ltb_spec (now - start) timeout);
    try (injection Hrun as <-; simpl; lia);
    destruct (Main.observed_exit st);
    try (injection Hrun as <-; simpl; lia); try discriminate.
  destruct (Main.probe (Main.reply t)) as [answer elapsed].
  destruct answer as [|e].
  - injection Hrun as <-. simpl. lia.
  - apply IH in Hrun. simpl. lia.
Qed.

(** The poller ends, and it sends at most one probe per 200 ms of its
    deadline: a script with one turn for every 200 ms is enough for it to
    settle, and a run that has sent [n] probes sent the last of them before
    the deadline, so [200 * (n - 1)] is below the deadline (at most 150 probes
    for the default 30 seconds). *)
Theorem waitForServer_probe_budget (port : Z) (timeout : option Z)
  (script : list Main.turn) (now : Z) (st : Main.state) :
  (default 30000 timeout <= 200 * Z.of_nat (length script) ->
   exists r, Main.waitForServer port timeout script now st = Some r)
  /\ (forall r, Main.waitForServer port timeout script now st = Some r ->
        (Main.probes r <= length script)%nat
        /\ (Main.probes r = 0%nat
            \/ 200 * (Z.of_nat (Main.probes r) - 1) < default 30000 timeout)).
Proof.
  unfold Main.waitForServer. split.
  - intros Hlen. apply waitForServer_loop_total. lia.
  - intros r Hrun. split.
    + apply waitForServer_loop_probes_le in Hrun. lia.
    + apply waitForServer_loop_budget in Hrun; [|lia].
      destruct Hrun as [Heq|[_ Hb]]; [now left|now right].
Qed.

Lemma waitForServer_probe_budget_witness :
  exists r, Main.waitForServer 49152 None (repeat refused 150) 0 started = Some r.
Proof.
  apply (proj1 (waitForServer_probe_budget 49152 None (repeat refused 150) 0 started)).
  rewrite repeat_length. simpl. lia.
Defined.

Lemma waitForServer_loop_resolved (port timeout start : Z) (script : list Main.turn) :
  forall (now : Z) (sent : nat) (st : Main.state) (r : Main.run),
    Main.waitForServer_loop port timeout start script now sent st = Some r ->
    Main.result r = Main.Resolved ->
    exists (failed : list Main.turn) (ok : Main.turn) (rest : list Main.turn)
           (latency : nat),
      script = failed ++ ok :: rest
      /\ Forall probe_fails failed
      /\ Main.reply ok = Main.Reply 200 latency /\ (latency < 1000)%nat
      /\ Main.probes r = (sent + length failed + 1)%nat
      /\ Main.ended_at r = now + turns_ms failed + Z.of_nat latency.
Proof.
  induction script as [|t script IH]; intros now sent st r Hrun Hres;
    simpl in Hrun;
    destruct (Z.ltb_spec (now - start) timeout) as [Hlt|Hge];
    try (injection Hrun as <-; discriminate Hres);
    destruct (Main.observed_exit st);
    try (injection Hrun as <-; discriminate Hres); try discriminate.
  destruct (Main.probe (Main.reply t)) as [answer elapsed] eqn:Hp.
  destruct answer as [|e].
  - injection Hrun as <-. simpl.
    assert (Hok : fst (Main.probe (Main.reply t)) = Main.Resolved) by now rewrite Hp.
    apply probe_resolved_iff in Hok as (latency & Hreply & Hlat).
    exists [], t, script, latency. simpl.
    assert (elapsed = Z.of_nat latency).
    { rewrite Hreply in Hp. simpl in Hp.
      destruct (Z.ltb_spec (Z.of_nat latency) 1000); [|lia]. now injection Hp as <-. }
    subst. repeat split; try assumption; try constructor; lia.
  - apply IH in Hrun; [|assumption].
    destruct Hrun as (failed & ok & rest & latency & -> & Hf & Hok & Hlat & Hpr & Hend).
    exists (t :: failed), ok, rest, latency. split; [reflexivity|].
    split; [constructor; [unfold probe_fails; rewrite Hp; discriminate|assumption]|].
    split; [assumption|]. split; [assumption|]. split; [simpl; lia|].
    simpl. unfold turn_ms. rewrite Hp. simpl. lia.
Qed.

(** The poller reports success only for a 200: when [waitForServer]
    resolves, the last probe it sent was answered 200 within its second,
    every probe before it failed, and it resolved at the moment of that
    answer. *)
Theorem waitForServer_resolves_only_on_200 (port : Z) (timeout : option Z)
  (script : list Main.turn) (now : Z) (st : Main.state) (r : Main.run) :
  Main.waitForServer port timeout script now st = Some r ->
  Main.result r = Main.Resolved ->
  exists (failed : list Main.turn) (ok : Main.turn) (rest : list Main.turn)
         (latency : nat),
    script = failed ++ ok :: rest
    /\ Forall probe_fails failed
    /\ Main.reply ok = Main.Reply 200 latency /\ (latency < 1000)%nat
    /\ Main.probes r = S (length failed)
    /\ Main.ended_at r = now + turns_ms failed + Z.of_nat latency.
Proof.
  intros Hrun Hres. unfold Main.waitForServer in Hrun.
  destruct (waitForServer_loop_resolved _ _ _ _ _ _ _ _ Hrun Hres)
    as (failed & ok & rest & latency & H1 & H2 & H3 & H4 & H5 & H6).
  exists failed, ok, rest, latency. repeat split; try assumption. lia.
Qed.

Definition answers_200 : Main.turn := {|
  Main.reply := Main.Reply 200 5;
  Main.during_probe := [];
  Main.during_sleep := [];
  Main.timer_lag := 0
|}.

Lemma waitForServer_resolves_only_on_200_witness :
  exists (failed : list Main.turn) (ok : Main.turn) (rest : list Main.turn),
    [refused; answers_200; refused] = failed ++ ok :: rest
    /\ exists latency, Main.reply ok = Main.Reply 200 latency.
Proof.
  destruct (Main.waitForServer 49152 None [refused; answers_200; refused] 0 started)
    as [r|] eqn:Hr; [|vm_compute in Hr; discriminate Hr].
  assert (Hres : Main.result r = Main.Resolved).
  { vm_compute in Hr. injection Hr as <-. reflexivity. }
  destruct (waitForServer_resolves_only_on_200 _ _ _ _ _ _ Hr Hres)
    as (failed & ok & rest & latency & H1 & _ & H3 & _).
  exists failed, ok, rest. split; [exact H1|]. now exists latency.
Defined.

Lemma waitForServer_loop_settles (port timeout start lag : Z) (script : list Main.turn) :
  forall (now : Z) (sent : nat) (st : Main.state) (r : Main.run),
    Forall (fun t => Z.of_nat (Main.timer_lag t) <= lag) script ->
    Main.waitForServer_loop port timeout start script now sent st = Some r ->
    now <= Main.ended_at r
    /\ ((Main.ended_at r = now /\ Main.result r <> Main.Resolved)
        \/ (Main.ended_at r - start < timeout + 1200 + lag
            /\ (Main.result r = Main.Resolved -> Main.ended_at r - start < timeout + 1000))).
Proof.
  induction script as [|t script IH]; intros now sent st r Hlag Hrun;
    simpl in Hrun;
    destruct (Z.ltb_spec (now - start) timeout) as [Hlt|Hge];
    try (injection Hrun as <-; simpl; split; [lia|left; split; [reflexivity|discriminate]]);
    destruct (Main.observed_exit st);
    try (injection Hrun as <-; simpl; split; [lia|left; split; [reflexivity|discriminate]]);
    try discriminate.
  inversion Hlag as [|? ? Ht Hlag']; subst.
  pose proof (probe_elapsed (Main.reply t)) as He.
  destruct (Main.probe (Main.reply t)) as [answer elapsed].
  simpl in He. destruct answer as [|e].
  - injection Hrun as <-. simpl. split; [lia|]. right. split; [lia|]. intros _. lia.
  - apply IH in Hrun; [|assumption]. destruct Hrun as [Hle Hcase].
    split; [lia|]. right. destruct Hcase as [[Heq Hnr]|[Hb Hres]].
    + split; [lia|]. intros Hr. contradiction.
    + split; [exact Hb|exact Hres].
Qed.

(** The poller settles in bounded time: never before it is called, and,
    for a deadline that is not negative and sleep timers that fire at most
    [lag] ms late, less than 1200 ms plus [lag] after the deadline; a success
    comes less than 1000 ms after the deadline. *)
Theorem waitForServer_settles_in_time (port : Z) (timeout : option Z) (lag : Z)
  (script : list Main.turn) (now : Z) (st : Main.state) (r : Main.run) :
  0 <= default 30000 timeout -> 0 <= lag ->
  Forall (fun t => Z.of_nat (Main.timer_lag t) <= lag) script ->
  Main.waitForServer port timeout script now st = Some r ->
  now <= Main.ended_at r
  /\ Main.ended_at r - now < default 30000 timeout + 1200 + lag
  /\ (Main.result r = Main.Resolved ->
      Main.ended_at r - now < default 30000 timeout + 1000).
Proof.
  intros Ht Hl Hlag Hrun. unfold Main.waitForServer in Hrun.
  apply (waitForServer_loop_settles _ _ _ lag) in Hrun; [|assumption].
  destruct Hrun as [Hle [[Heq Hnr]|[Hb Hres]]].
  - split; [lia|]. split; [lia|]. intros Hr. contradiction.
  - split; [lia|]. split; [exact Hb|exact Hres].
Qed.

Lemma waitForServer_settles_in_time_witness :
  exists r : Main.run,
    Main.waitForServer 49152 None (repeat refused 150) 0 started = Some r
    /\ Main.ended_at r - 0 < 30000 + 1200 + 0.
Proof.
  destruct (Main.waitForServer 49152 None (repeat refused 150) 0 started)
    as [r|] eqn:Hr; [|vm_compute in Hr; discriminate Hr].
  exists r. split; [reflexivity|].
  refine (proj1 (proj2 (waitForServer_settles_in_time 49152 None 0
                          (repeat refused 150) 0 started r _ _ _ Hr))).
  - simpl. lia.
  - lia.
  - apply List.Forall_forall. intros t Ht. apply repeat_spec in Ht. subst. simpl. lia.
Defined.

(** The fields of the state that child events never write. *)
Definition same_application (st st' : Main.state) : Prop :=
  Main.mainWindow st' = Main.mainWindow st
  /\ Main.serverPort st' = Main.serverPort st
  /\ Main.userShellEnv st' = Main.userShellEnv st
  /\ Main.windows st' = Main.windows st
  /\ Main.windows_created st' = Main.windows_created st
  /\ Main.errorBoxes st' = Main.errorBoxes st
  /\ Main.quitting st' = Main.quitting st
  /\ length (Main.children st') = length (Main.children st)
  /\ (forall pid, Main.killed <$> (Main.children st' !! pid)
                  = Main.killed <$> (Main.children st !! pid)).

Lemma same_application_refl (st : Main.state) : same_application st st.
Proof. repeat split. Qed.

Lemma same_application_trans (a b c : Main.state) :
  same_application a b -> same_application b c -> same_application a c.
Proof.
  intros (A1 & A2 & A3 & A4 & A5 & A6 & A7 & A8 & A9)
         (B1 & B2 & B3 & B4 & B5 & B6 & B7 & B8 & B9).
  repeat split; try congruence; intros pid; now rewrite B9, A9.
Qed.

Lemma deliver_same_application (st : Main.state) (ev : Main.child_event) :
  same_application st (Main.deliver st ev).
Proof.
  destruct ev as [pid data|pid data|pid code signal]; simpl.
  - destruct (Main.spawned st pid); repeat split.
  - destruct (Main.spawned st pid); repeat split.
  - destruct (Main.is_live st pid); [|repeat split].
    repeat split; simpl.
    + apply length_alter.
    + intros p. rewrite list_lookup_alter. case_decide; [subst|reflexivity].
      now destruct (Main.children st !! p).
Qed.

Lemma deliver_all_same_application (evs : list Main.child_event) (st : Main.state) :
  same_application st (Main.deliver_all st evs).
Proof.
  revert st. induction evs as [|ev evs IH]; intros st; [apply same_application_refl|].
  eapply same_application_trans; [apply deliver_same_application|apply IH].
Qed.

Lemma waitForServer_loop_same_application (port timeout start : Z)
  (script : list Main.turn) :
  forall (now : Z) (sent : nat) (st : Main.state) (r : Main.run),
    Main.waitForServer_loop port timeout start script now sent st = Some r ->
    same_application st (Main.final r).
Proof.
  induction script as [|t script IH]; intros now sent st r Hrun;
    simpl in Hrun;
    destruct (Z.ltb_spec (now - start) timeout);
    try (injection Hrun as <-; apply same_application_refl);
    destruct (Main.observed_exit st);
    try (injection Hrun as <-; apply same_application_refl); try discriminate.
  destruct (Main.probe (Main.reply t)) as [answer elapsed].
  destruct answer as [|e].
  - injection Hrun as <-. simpl. apply deliver_all_same_application.
  - apply IH in Hrun.
    eapply same_application_trans; [|exact Hrun].
    eapply same_application_trans; apply deliver_all_same_application.
Qed.

(** The poller only waits.  Between the call of [waitForServer] and its
    settling, the state changes by the child events of that time alone:
    [serverPort], [userShellEnv], the windows and [mainWindow] are as they
    were, no dialog is shown, the application does not quit, and no child is
    spawned or sent a signal. *)
Theorem waitForServer_only_waits (port : Z) (timeout : option Z)
  (script : list Main.turn) (now : Z) (st : Main.state) (r : Main.run) :
  Main.waitForServer port timeout script now st = Some r ->
  same_application st (Main.final r).
Proof. apply waitForServer_loop_same_application. Qed.

Lemma waitForServer_only_waits_witness :
  exists r : Main.run,
    Main.waitForServer 49152 None (crash_turn :: repeat refused 149) 0 started = Some r
    /\ same_application started (Main.final r).
Proof.
  destruct (Main.waitForServer 49152 None (crash_turn :: repeat refused 149) 0 started)
    as [r|] eqn:Hr; [|vm_compute in Hr; discriminate Hr].
  exists r. split; [reflexivity|].
  exact (waitForServer_only_waits _ _ _ _ _ _ Hr).
Defined.

(** ** The application's event handlers *)

(** [kill_server], the body of [window-all-closed] and [before-quit]:
    it clears the handle; it sends the signal to the child the handle
    referred to, whose process goes on until its own exit, and touches no
    other child; and doing it twice is doing it once. *)
Theorem kill_server_stops_the_referenced_child (st : Main.state) :
  Main.serverProcess (Main.kill_server st) = None
  /\ Main.kill_server (Main.kill_server st) = Main.kill_server st
  /\ (forall pid c,
        Main.serverProcess st = Some pid -> Main.children st !! pid = Some c ->
        exists c', Main.children (Main.kill_server st) !! pid = Some c'
                   /\ Main.killed c' = true /\ Main.running c' = Main.running c
                   /\ Main.spawn_env c' = Main.spawn_env c)
  /\ (forall pid, Main.serverProcess st <> Some pid ->
        Main.children (Main.kill_server st) !! pid = Main.children st !! pid)
  /\ (Main.serverProcess st = None -> Main.kill_server st = st).
Proof.
  unfold Main.kill_server.
  destruct (Main.serverProcess st) as [handle|] eqn:Hh; simpl.
  - split; [reflexivity|]. split; [reflexivity|]. split; [|split; [|discriminate]].
    + intros pid c [= <-] Hc. rewrite list_lookup_alter_eq, Hc. simpl.
      eexists. split; [reflexivity|]. repeat split.
    + intros pid Hne. apply list_lookup_alter_ne. congruence.
  - rewrite Hh. split; [reflexivity|]. split; [reflexivity|].
    split; [discriminate|]. split; reflexivity.
Qed.

Lemma kill_server_stops_the_referenced_child_witness :
  exists c' : Main.ChildProcess,
    Main.children (Main.kill_server started) !! 0%nat = Some c'
    /\ Main.killed c' = true /\ Main.running c' = true.
Proof.
  destruct (Main.children started !! 0%nat) as [c|] eqn:Hc;
    [|vm_compute in Hc; discriminate Hc].
  destruct (proj1 (proj2 (proj2 (kill_server_stops_the_referenced_child started)))
              0%nat c eq_refl Hc) as (c' & Hc' & Hk & Hr & _).
  exists c'. split; [exact Hc'|]. split; [exact Hk|].
  rewrite Hr. vm_compute in Hc. injection Hc as <-. reflexivity.
Defined.

Section HandlerFacts.

Variable h : Main.host.
Variable execFileSync : string -> list string -> Main.completion string.

Local Abbreviation step := (Main.step h execFileSync).
Local Abbreviation run_events := (Main.run_events h execFileSync).




(** *** Development mode *)

Definition dev_url : string := "http://127.0.0.1:3000".

Definition dev_state (a : Main.app) : Prop :=
  Main.children (Main.st a) = []
  /\ Main.serverProcess (Main.st a) = None
  /\ Main.pending a = []
  /\ (Main.serverPort (Main.st a) = None \/ Main.serverPort (Main.st a) = Some 3000)
  /\ Forall (fun w => Main.loadedURL w = dev_url) (Main.windows (Main.st a)).

Lemma dev_state_same (a : Main.app) (st' : Main.state) :
  dev_state a ->
  Main.children st' = Main.children (Main.st a) ->
  Main.serverProcess st' = Main.serverProcess (Main.st a) ->
  Main.serverPort st' = Main.serverPort (Main.st a) ->
  Main.windows st' = Main.windows (Main.st a) ->
  dev_state {| Main.st := st'; Main.pending := Main.pending a; Main.started := Main.started a |}.
Proof.
  intros (H1 & H2 & H3 & H4 & H5) E1 E2 E3 E4. unfold dev_state. simpl.
  now rewrite E1, E2, E3, E4.
Qed.

Lemma kill_server_without_handle (st : Main.state) :
  Main.serverProcess st = None -> Main.kill_server st = st.
Proof. unfold Main.kill_server. now intros ->. Qed.

Lemma step_dev_state (a : Main.app) (e : Main.event) :
  Main.isDev h = true -> dev_state a -> dev_state (step a e).
Proof.
  intros Hdev Hd. pose proof Hd as (Hc & Hs & Hp & Hport & Hw).
  unfold Main.step. destruct (Main.quitting (Main.st a)); [exact Hd|].
  destruct e as [| |id| |ev|i r|i r]; simpl.
  - destruct (Main.started a); [exact Hd|]. unfold Main.on_ready. rewrite Hdev.
    destruct (Main.loadUserShellEnv h execFileSync) as [out [shellEnv|err]]; simpl.
    + destruct (same_server_write_all out (Main.st a)) as [E1 E2].
      unfold dev_state. simpl. rewrite E1, E2, Hp.
      repeat split; try assumption; [now right|].
      apply Forall_app. split; [|repeat constructor].
      clear -Hw. revert Hw. generalize (Main.st a) as s.
      induction out as [|l out IH]; intros s Hw; [exact Hw|]. simpl. now apply IH.
    + destruct (same_server_write_all out (Main.st a)) as [E1 E2].
      unfold dev_state. simpl. rewrite E1, E2, Hp.
      repeat split; try assumption.
      * clear -Hport. revert Hport. generalize (Main.st a) as s.
        induction out as [|l out IH]; intros s Hport; [exact Hport|]. simpl. now apply IH.
      * clear -Hw. revert Hw. generalize (Main.st a) as s.
        induction out as [|l out IH]; intros s Hw; [exact Hw|]. simpl. now apply IH.
  - unfold Main.on_activate. rewrite Hdev. simpl.
    destruct (length (Main.windows (Main.st a)) =? 0)%nat; simpl.
    + unfold dev_state. simpl. rewrite Hp. repeat split; try assumption.
      apply Forall_app. split; [exact Hw|]. repeat constructor. simpl.
      unfold Main.serverPort_or_3000. now destruct Hport as [->| ->].
    + unfold dev_state. simpl. now rewrite Hp.
  - unfold Main.on_window_closed. destruct (existsb _ _); simpl.
    2: { unfold dev_state. simpl. now rewrite Hp. }
    assert (Hf : Forall (fun w => Main.loadedURL w = dev_url)
                   (List.filter (fun w => negb (Main.window_id w =? id)%nat)
                      (Main.windows (Main.st a)))).
    { apply List.Forall_forall. intros w Hin. apply filter_In in Hin as [Hin _].
      exact (proj1 (List.Forall_forall _ _) Hw w Hin). }
    destruct (List.filter _ _) as [|w ws] eqn:Hrest.
    + unfold Main.on_window_all_closed, Main.app_quit, Main.on_before_quit.
      assert (Hk : Main.kill_server
                     (Main.set_windows None [] (Main.windows_created (Main.st a)) (Main.st a))
                   = Main.set_windows None [] (Main.windows_created (Main.st a)) (Main.st a))
        by (apply kill_server_without_handle; exact Hs).
      rewrite !Hk.
      destruct (negb _); unfold dev_state; simpl; rewrite Hp; repeat split;
        first [assumption|reflexivity|apply Forall_nil_2].
    + unfold dev_state. simpl. rewrite Hp. repeat split;
        first [assumption|reflexivity].
  - unfold Main.app_quit, Main.on_before_quit.
    rewrite kill_server_without_handle by assumption.
    unfold dev_state. simpl. now rewrite Hp.
  - assert (Hdel : Main.deliver (Main.st a) ev = Main.st a).
    { destruct ev as [pid data|pid data|pid code signal]; simpl;
        unfold Main.spawned, Main.is_live; rewrite Hc; now rewrite lookup_nil. }
    rewrite Hdel. unfold dev_state. simpl. now rewrite Hp.
  - rewrite Hp, lookup_nil. exact Hd.
  - rewrite Hp, lookup_nil. exact Hd.
Qed.

(** In development mode the application never spawns a server and never
    waits for one: whatever the events, there is no child process, no handle
    and no suspended handler, and every window it opens loads
    [http://127.0.0.1:3000]. *)
Theorem dev_mode_never_spawns (es : list Main.event) :
  Main.isDev h = true ->
  let a := run_events Main.boot es in
  Main.children (Main.st a) = []
  /\ Main.serverProcess (Main.st a) = None
  /\ Main.pending a = []
  /\ Forall (fun w => Main.loadedURL w = dev_url) (Main.windows (Main.st a)).
Proof.
  intros Hdev a.
  assert (Hgen : forall a0, dev_state a0 -> dev_state (run_events a0 es)).
  { clear a. induction es as [|e es IH]; intros a0 Hd; [exact Hd|].
    simpl. apply IH. now apply step_dev_state. }
  destruct (Hgen Main.boot) as (H1 & H2 & H3 & _ & H5).
  { unfold dev_state. simpl. repeat split; auto. }
  repeat split; assumption.
Qed.

End HandlerFacts.

Definition dev_host : Main.host := {|
  Main.isDev := true;
  Main.platform := "linux";
  Main.process_env := ∅;
  Main.homedir := "/home/dev";
  Main.resourcesPath := "/opt/electron/resources";
  Main.execPath := "/opt/electron/electron";
  Main.userData := "/home/dev/.config/CodePilot"
|}.


Lemma dev_mode_never_spawns_witness :
  let a := Main.run_events dev_host shell_answers Main.boot
             [Main.Activate; Main.Ready; Main.PortSettled 0 (Main.Normal 4000)] in
  Main.children (Main.st a) = [] /\ length (Main.windows (Main.st a)) = 2%nat.
Proof.
  intros a. split; [|vm_compute; reflexivity].
  exact (proj1 (dev_mode_never_spawns dev_host shell_answers
                  [Main.Activate; Main.Ready; Main.PortSettled 0 (Main.Normal 4000)]
                  eq_refl)).
Defined.

(** *** Windows *)

(** Open windows have distinct ids below the number of windows created, and
    [mainWindow], when set, is one of them. *)
Definition windows_ok (st : Main.state) : Prop :=
  NoDup (map Main.window_id (Main.windows st))
  /\ Forall (fun w => (Main.window_id w < Main.windows_created st)%nat) (Main.windows st)
  /\ (forall id, Main.mainWindow st = Some id ->
        In id (map Main.window_id (Main.windows st))).

Definition same_windows (st st' : Main.state) : Prop :=
  Main.mainWindow st' = Main.mainWindow st
  /\ Main.windows st' = Main.windows st
  /\ Main.windows_created st' = Main.windows_created st.

Lemma same_windows_ok (st st' : Main.state) :
  same_windows st st' -> windows_ok st -> windows_ok st'.
Proof. intros (E1 & E2 & E3). unfold windows_ok. now rewrite E1, E2, E3. Qed.

Lemma same_windows_trans (a b c : Main.state) :
  same_windows a b -> same_windows b c -> same_windows a c.
Proof. intros (A1 & A2 & A3) (B1 & B2 & B3). repeat split; congruence. Qed.

Lemma write_all_same_windows (out : list Main.log_entry) (st : Main.state) :
  same_windows st (fold_left (fun s l => Main.write l s) out st).
Proof.
  revert st. induction out as [|l out IH]; intros st; [repeat split|].
  simpl. eapply same_windows_trans; [|apply IH]. repeat split.
Qed.

Lemma kill_server_same_windows (st : Main.state) : same_windows st (Main.kill_server st).
Proof. unfold Main.kill_server. destruct (Main.serverProcess st); repeat split. Qed.

Lemma app_quit_same_windows (st : Main.state) : same_windows st (Main.app_quit st).
Proof.
  unfold Main.app_quit, Main.on_before_quit.
  eapply same_windows_trans; [apply kill_server_same_windows|repeat split].
Qed.

Lemma deliver_same_windows (st : Main.state) (ev : Main.child_event) :
  same_windows st (Main.deliver st ev).
Proof.
  destruct (deliver_same_application st ev) as (H1 & _ & _ & H4 & H5 & _).
  repeat split; assumption.
Qed.

Lemma createWindow_ok (port : Z) (st : Main.state) :
  windows_ok st -> windows_ok (Main.createWindow port st).
Proof.
  intros (Hnd & Hlt & Hmain). unfold windows_ok, Main.createWindow. simpl.
  rewrite map_app. simpl. split; [|split].
  - apply NoDup_app. split; [exact Hnd|]. split; [|apply NoDup_singleton].
    intros id Hin Hin'. apply list_elem_of_In in Hin. apply in_map_iff in Hin as (w & <- & Hw).
    apply list_elem_of_In in Hin'. destruct Hin' as [Heq|[]].
    pose proof (proj1 (List.Forall_forall _ _) Hlt w Hw) as Hlt'. simpl in Hlt'. lia.
  - apply Forall_app. split.
    + eapply Forall_impl; [exact Hlt|]. simpl. intros w Hw. lia.
    + repeat constructor.
  - intros id [= <-]. apply in_or_app. right. now left.
Qed.

Section WindowFacts.

Variable h : Main.host.
Variable execFileSync : string -> list string -> Main.completion string.

Lemma on_window_all_closed_same_windows (st : Main.state) :
  same_windows st (Main.on_window_all_closed h st).
Proof.
  unfold Main.on_window_all_closed. destruct (negb _).
  - eapply same_windows_trans; [apply kill_server_same_windows|apply app_quit_same_windows].
  - apply kill_server_same_windows.
Qed.

Lemma ready_catch_same_windows (err : Js.thrown) (st : Main.state) :
  same_windows st (Main.ready_catch err st).
Proof.
  unfold Main.ready_catch.
  eapply same_windows_trans; [|apply app_quit_same_windows]. repeat split.
Qed.

Lemma on_window_closed_ok (id : nat) (st : Main.state) :
  windows_ok st -> windows_ok (Main.on_window_closed h id st).
Proof.
  intros (Hnd & Hlt & Hmain). unfold Main.on_window_closed.
  destruct (existsb _ _); [|now repeat split].
  assert (Hok : windows_ok
    (Main.set_windows None
       (List.filter (fun w => negb (Main.window_id w =? id)%nat) (Main.windows st))
       (Main.windows_created st) st)).
  { unfold windows_ok. simpl. split; [|split; [|discriminate]].
    - clear -Hnd. induction (Main.windows st) as [|w ws IH]; simpl; [constructor|].
      simpl in Hnd. apply NoDup_cons in Hnd as [Hnotin Hnd].
      destruct (negb _); [|now apply IH]. simpl. apply NoDup_cons. split; [|now apply IH].
      intros Hin. apply Hnotin. apply list_elem_of_In in Hin. apply list_elem_of_In.
      apply in_map_iff in Hin as (w' & Heq & Hw'). apply filter_In in Hw' as [Hw' _].
      apply in_map_iff. now exists w'.
    - apply List.Forall_forall. intros w Hin. apply filter_In in Hin as [Hin _].
      exact (proj1 (List.Forall_forall _ _) Hlt w Hin). }
  destruct (List.filter _ _) as [|w ws]; [|exact Hok].
  exact (same_windows_ok _ _ (on_window_all_closed_same_windows _) Hok).
Qed.

Lemma step_windows_ok (a : Main.app) (e : Main.event) :
  windows_ok (Main.st a) -> windows_ok (Main.st (Main.step h execFileSync a e)).
Proof.
  intros Hok. unfold Main.step.
  destruct (Main.quitting (Main.st a)); [exact Hok|].
  destruct e as [| |id| |ev|i r|i r]; simpl.
  - destruct (Main.started a); [exact Hok|]. simpl. unfold Main.on_ready.
    destruct (Main.loadUserShellEnv h execFileSync) as [out [shellEnv|err]].
    + pose proof (same_windows_ok _ _ (write_all_same_windows out (Main.st a)) Hok) as Hok'.
      destruct (Main.isDev h); simpl.
      * apply createWindow_ok. revert Hok'. apply same_windows_ok. repeat split.
      * revert Hok'. apply same_windows_ok. repeat split.
    + simpl. exact (same_windows_ok _ _ (write_all_same_windows out (Main.st a)) Hok).
  - unfold Main.on_activate.
    destruct (length (Main.windows (Main.st a)) =? 0)%nat; [|exact Hok].
    destruct (negb (Main.isDev h) && _); simpl; [exact Hok|now apply createWindow_ok].
  - now apply on_window_closed_ok.
  - exact (same_windows_ok _ _ (app_quit_same_windows _) Hok).
  - exact (same_windows_ok _ _ (deliver_same_windows _ _) Hok).
  - destruct (Main.pending a !! i) as [[| | |]|]; try exact Hok;
      destruct r as [port|err]; simpl;
      first [exact (same_windows_ok _ _ (ready_catch_same_windows _ _) Hok)
            |revert Hok; apply same_windows_ok; repeat split].
  - destruct (Main.pending a !! i) as [[| | |]|]; try exact Hok;
      destruct r as [|err]; simpl;
      first [exact (same_windows_ok _ _ (ready_catch_same_windows _ _) Hok)
            |apply createWindow_ok; revert Hok; apply same_windows_ok; repeat split
            |revert Hok; apply same_windows_ok; repeat split].
Qed.

(** [mainWindow] never refers to a window that has been closed: whatever the
    events, it is [null] or the id of a window that is open, and the open
    windows are distinct. *)
Theorem mainWindow_is_open (es : list Main.event) (id : nat) :
  Main.mainWindow (Main.st (Main.run_events h execFileSync Main.boot es)) = Some id ->
  exists w, In w (Main.windows (Main.st (Main.run_events h execFileSync Main.boot es)))
            /\ Main.window_id w = id
            /\ NoDup (map Main.window_id
                        (Main.windows (Main.st (Main.run_events h execFileSync Main.boot es)))).
Proof.
  assert (Hgen : forall a, windows_ok (Main.st a) ->
    windows_ok (Main.st (Main.run_events h execFileSync a es))).
  { induction es as [|e es IH]; intros a Hok; [exact Hok|].
    simpl. apply IH. now apply step_windows_ok. }
  destruct (Hgen Main.boot) as (Hnd & _ & Hmain).
  { unfold windows_ok. simpl. split; [constructor|]. split; [constructor|discriminate]. }
  intros Hid. apply Hmain in Hid. apply in_map_iff in Hid as (w & Hw & Hin).
  exists w. auto.
Qed.

End WindowFacts.

Lemma mainWindow_is_open_witness :
  exists w, In w (Main.windows (Main.st (Main.run_events dock_host shell_answers Main.boot
                                           (take 8 stale_exit_trace))))
            /\ Main.window_id w = 1%nat.
Proof.
  destruct (mainWindow_is_open dock_host shell_answers (take 8 stale_exit_trace) 1%nat)
    as (w & Hin & Hid & _); [vm_compute; reflexivity|].
  exists w. split; assumption.
Defined.

(** ** The sessions route *)

Section SessionFacts.

Context {Session : Type}.
Variable createSession :
  Sessions.value -> Sessions.value -> Sessions.value -> Sessions.value -> Sessions.value ->
  Sessions.raised + Session.
Variable exists_on_disk : string -> bool.
Variable null_property_error : Sessions.raised.

Local Abbreviation POST :=
  (Sessions.POST createSession exists_on_disk null_property_error).

Definition is_create (c : Sessions.call) : bool :=
  match c with
  | Sessions.CreateSession _ _ _ _ _ => true
  | _ => false
  end.


(** The answer is 201 with the session exactly when the session was
    created; every other answer is 400 or 500, and a 400 means that
    [createSession] was not called. *)
Theorem POST_201_iff_created (request_json : Sessions.raised + Sessions.parsed) :
  (Sessions.status (snd (POST request_json)) = 201
   <-> exists body session,
         request_json = inr (Sessions.Body body)
         /\ Sessions.truthy (Sessions.working_directory body) = true
         /\ Sessions.accessible exists_on_disk (Sessions.working_directory body) = true
         /\ createSession (Sessions.title body) (Sessions.model body)
              (Sessions.system_prompt body) (Sessions.working_directory body)
              (Sessions.mode body) = inr session
         /\ Sessions.json (snd (POST request_json)) = Sessions.SessionResponse session)
  /\ (Sessions.status (snd (POST request_json)) = 201
      \/ Sessions.status (snd (POST request_json)) = 400
      \/ Sessions.status (snd (POST request_json)) = 500)
  /\ (Sessions.status (snd (POST request_json)) = 400 ->
      List.filter is_create (fst (POST request_json)) = []).
Proof.
  unfold Sessions.POST, Sessions.POST_catch.
  destruct request_json as [error|[|body]]; simpl.
  - split; [split; [intros [=]|intros (b & s & [=] & _)]|]. split; [tauto|intros [=]].
  - split; [split; [intros [=]|intros (b & s & [=] & _)]|]. split; [tauto|intros [=]].
  - destruct (Sessions.truthy (Sessions.working_directory body)) eqn:Ht; simpl.
    2: { split; [split; [intros [=]|]|split; [tauto|reflexivity]].
         intros (b & s & [= <-] & Ht' & _). congruence. }
    destruct (Sessions.accessible exists_on_disk (Sessions.working_directory body)) eqn:Ha;
      simpl.
    2: { split; [split; [intros [=]|]|split; [tauto|reflexivity]].
         intros (b & s & [= <-] & _ & Ha' & _). congruence. }
    destruct (createSession _ _ _ _ _) as [error|session] eqn:Hc; simpl.
    + split; [split; [intros [=]|]|split; [tauto|intros [=]]].
      intros (b & s & [= <-] & _ & _ & Hc' & _). congruence.
    + split; [|split; [tauto|intros [=]]]. split; [|reflexivity].
      intros _. exists body, session. auto.
Qed.

End SessionFacts.

Definition sample_create :
  Sessions.value -> Sessions.value -> Sessions.value -> Sessions.value -> Sessions.value ->
  Sessions.raised + string :=
  fun _ _ _ dir _ =>
    match dir with
    | Sessions.Str d => inr ("session in " +:+ d)
    | _ => inl (Sessions.RaisedOther "no directory")
    end.

Definition sample_body : Sessions.CreateSessionRequest := {|
  Sessions.title := Sessions.Str "notes";
  Sessions.model := Sessions.Undefined;
  Sessions.system_prompt := Sessions.Undefined;
  Sessions.working_directory := Sessions.Str "/home/alice/project";
  Sessions.mode := Sessions.Str "code"
|}.

Definition sample_disk (path : string) : bool := String.prefix "/home/alice" path.


Lemma POST_201_iff_created_witness :
  Sessions.status
    (snd (Sessions.POST sample_create sample_disk (Sessions.RaisedOther "TypeError")
            (inr (Sessions.Body sample_body)))) = 201.
Proof.
  apply (proj1 (POST_201_iff_created sample_create sample_disk
                  (Sessions.RaisedOther "TypeError") (inr (Sessions.Body sample_body)))).
  exists sample_body. eexists. repeat split; reflexivity.
Defined.

Lemma on_activate_guard_witness :
  let closed := Main.st (Main.run_events dock_host shell_answers Main.boot
                           (take 4 stale_exit_trace)) in
  snd (Main.on_activate dock_host closed) = Some Main.ActivateAwaitPort
  /\ Main.serverProcess closed = None /\ Main.windows closed = [].
Proof.
  intros closed.
  pose proof (on_activate_guard dock_host closed Main.ActivateAwaitPort eq_refl)
    as (_ & Hs & _ & Hw & _).
  split; [reflexivity|]. split; assumption.
Defined.
